(** * Paillier cryptosystem of [cryptoscheme.go]: model and verification

    The Go package [paillier] works on [*big.Int] values.  They are modelled
    as [Z]; a Go call that either returns or stops with [panic(err)] is
    modelled by the sum type [result].  The entropy source ([io.Reader] of
    [crypto/rand]) is an interface in the source and a type class here. *)

From Stdlib Require Import ZArith Lia List Bool String.
From Stdlib Require Import Zdivisibility Zcong.
From Stdlib Require Import Zmod.ZmodInv.
Import ListNotations.

Local Open Scope Z_scope.

(** ** Errors and results *)

(** [InverseError] is the error type of the source.  [EntropyError] stands
    for whatever error value [crypto/rand] hands back. *)
Inductive error : Type :=
| InverseError
| EntropyError.

(** A [(value, err)] return of Go, and likewise a call that may panic with an
    error value: [Err e] is [err != nil], respectively [panic(e)]. *)
Inductive result (A : Type) : Type :=
| Ok (a : A)
| Err (e : error).

Arguments Ok {A} a.
Arguments Err {A} e.

(** [InverseError.Error()]. *)
Definition InverseError_Error : string := "Mod inverse error!".

(** ** Data model *)

Definition defaultKeySize : Z := 128.

Record PublicKey : Type := mkPublicKey {
  P_n : Z;
  P_nn : Z;
  P_g : Z
}.

(** The field [PublicKey] of the source is the projection [PublicKey_of]. *)
Record PrivateKey : Type := mkPrivateKey {
  PublicKey_of : PublicKey;
  P_h : Z;
  P_u : Z
}.

(** [PublicValue.Val] is [PublicVal], [PrivateValue.Val] is [PrivateVal]. *)
Record PublicValue : Type := mkPublicValue { PublicVal : Z }.

Record PrivateValue : Type := mkPrivateValue { PrivateVal : Z }.

(** ** Modular arithmetic toolkit *)

(** Modelled from the spec: the helper [square] is called by [GenKeypair] but
    its body is not part of the source file; spec 4.1 gives
    [square(x) = x * x]. *)
Definition square (x : Z) : Z := x * x.

(** Modelled from the spec: the helper [inc] is not part of the source file;
    spec 4.1 gives [inc(x) = x + 1]. *)
Definition inc (x : Z) : Z := x + 1.

(** Modelled from the spec: the helper [dec] is not part of the source file;
    spec 4.1 gives [dec(x) = x - 1]. *)
Definition dec (x : Z) : Z := x - 1.

(** Modelled from the spec: the helper [lcm] is not part of the source file;
    spec 4.1 gives [lcm(a,b) = a * b / gcd(a,b)]. *)
Definition lcm (a b : Z) : Z := a * b / Z.gcd a b.

(** Modelled from the spec: the helper [pow] is not part of the source file;
    spec 4.1 gives standard modular exponentiation for a non-negative
    exponent and a positive modulus.  Outside that domain the spec says
    nothing, and no theorem below uses the value there. *)
Definition pow (base exp modulus : Z) : Z := base ^ exp mod modulus.

(** Modelled from the spec: the helper [rev] is not part of the source file;
    spec 4.1 gives the modular inverse by the extended Euclidean algorithm,
    failing with [InverseError] when [gcd(a, mod) <> 1].  [Z.extgcd a m]
    returns Bezout coefficients [(u, v)] and [d = gcd a m]. *)
Definition rev (a modulus : Z) : result Z :=
  let '(u, _, d) := Z.extgcd a modulus in
  if d =? 1 then Ok (u mod modulus) else Err InverseError.

(** Modelled from the spec: the helper [l] is not part of the source file;
    spec 4.1 gives [L(x, n) = (x - 1) / n], integer division. *)
Definition l (x n : Z) : Z := (x - 1) / n.

(** Modelled from the spec: the helper [bigMul] is not part of the source
    file; spec 4.1 gives [modmul(a, b, mod) = (a * b) mod mod]. *)
Definition bigMul (a b modulus : Z) : Z := (a * b) mod modulus.

(** ** Entropy source *)

(** [big.Int.BitLen]: the length of [|x|] in bits, 0 for 0. *)
Definition BitLen (x : Z) : Z :=
  if x =? 0 then 0 else Z.log2 (Z.abs x) + 1.

(** The [io.Reader] handed to [crypto/rand].  [rand_Int rd max] is
    [rand.Int(rd, max)] and [rand_Prime rd bits] is [rand.Prime(rd, bits)];
    each returns its [(value, err)] and the reader after the read.  The two
    laws are the documented contracts of [crypto/rand]: [Int] returns a value
    in [[0, max)], [Prime] a number of exactly the given bit length (and an
    error when [bits < 2]).  Primality itself is only probabilistic in
    [crypto/rand] and is a hypothesis wherever a theorem needs it. *)
Class EntropySource (reader : Type) : Type := {
  rand_Int : reader -> Z -> result Z * reader;
  rand_Prime : reader -> Z -> result Z * reader;
  rand_Int_range : forall rd max r rd',
    rand_Int rd max = (Ok r, rd') -> 0 <= r < max;
  rand_Prime_bits : forall rd bits p rd',
    rand_Prime rd bits = (Ok p, rd') -> 2 <= bits /\ 0 < p /\ BitLen p = bits
}.

(** A scripted reader: the values to be drawn, in order.  [rand.Int] and
    [rand.Prime] sample by rejection, so a scripted value outside the
    requested range is skipped; an exhausted script is a read error. *)
Fixpoint tape_Int (rd : list Z) (max : Z) : result Z * list Z :=
  match rd with
  | [] => (Err EntropyError, [])
  | x :: rd' =>
      if (0 <=? x) && (x <? max) then (Ok x, rd') else tape_Int rd' max
  end.

Fixpoint tape_Prime (rd : list Z) (bits : Z) : result Z * list Z :=
  match rd with
  | [] => (Err EntropyError, [])
  | x :: rd' =>
      if (2 <=? bits) && (0 <? x) && (BitLen x =? bits) then (Ok x, rd')
      else tape_Prime rd' bits
  end.

(** The scripted reader is an entropy source: a value is returned only
    after the range test, respectively the bit-length test. *)
#[export, refine] Instance tape_source : EntropySource (list Z) := {|
  rand_Int := tape_Int;
  rand_Prime := tape_Prime
|}.
Proof.
  - intros rd max r rd'.
    induction rd as [|x rd IH]; simpl; [discriminate|].
    destruct ((0 <=? x) && (x <? max)) eqn:E; [|exact IH].
    intros [= <- _]. apply andb_true_iff in E. lia.
  - intros rd bits p rd'.
    induction rd as [|x rd IH]; simpl; [discriminate|].
    destruct ((2 <=? bits) && (0 <? x) && (BitLen x =? bits)) eqn:E;
      [|exact IH].
    intros [= <- _]. rewrite !andb_true_iff in E. lia.
Defined.

(** ** The scheme *)

Section Scheme.

Context {reader : Type} `{EntropySource reader}.

Record paillier : Type := mkPaillier {
  P : Z;
  Q : Z;
  randomReader : reader
}.

(** The instance after a read that left the reader in state [rd]. *)
Definition with_reader (p : paillier) (rd : reader) : paillier :=
  {| P := P p; Q := Q p; randomReader := rd |}.

Definition GenKeypair (p : paillier) : result PrivateKey :=
  let n := P p * Q p in
  let nn := square n in
  let g := inc n in
  let h := lcm (dec (P p)) (dec (Q p)) in
  match rev (l (pow g h nn) n) n with
  | Err err => Err err
  | Ok u =>
      Ok {| PublicKey_of := {| P_n := n; P_nn := nn; P_g := g |};
            P_h := h;
            P_u := u |}
  end.

Definition Encrypt (p : paillier) (key : PublicKey) (m : PrivateValue)
  : result PublicValue * paillier :=
  match rand_Int (randomReader p) (P_n key) with
  | (Err err, rd) => (Err err, with_reader p rd)
  | (Ok r, rd) =>
      let s1 := pow (P_g key) (PrivateVal m) (P_nn key) in
      let s2 := pow r (P_n key) (P_nn key) in
      (Ok {| PublicVal := bigMul s1 s2 (P_nn key) |}, with_reader p rd)
  end.

Definition Decrypt (p : paillier) (key : PrivateKey) (c : PublicValue)
  : PrivateValue :=
  let ch := pow (PublicVal c) (P_h key) (P_nn (PublicKey_of key)) in
  let lVal := l ch (P_n (PublicKey_of key)) in
  {| PrivateVal := bigMul lVal (P_u key) (P_n (PublicKey_of key)) |}.

Definition Add (p : paillier) (a b : PublicValue) (key : PublicKey)
  : PublicValue :=
  {| PublicVal := bigMul (PublicVal a) (PublicVal b) (P_nn key) |}.

Definition Mul (p : paillier) (a : PublicValue) (b : Z) (key : PublicKey)
  : PublicValue :=
  {| PublicVal := pow (PublicVal a) b (P_nn key) |}.

Definition Sub (p : paillier) (a b : PublicValue) (key : PublicKey)
  : result PublicValue :=
  match rev (PublicVal b) (P_nn key) with
  | Err err => Err err
  | Ok revB => Ok {| PublicVal := bigMul (PublicVal a) revB (P_nn key) |}
  end.

(** [GetDefaultInstance]; [Reader] is the state of the global [rand.Reader],
    which the instance keeps as its [randomReader].  The key size is a Go
    [int]; it is only handed on to [rand.Prime], so it is a [Z] here. *)
Definition GetDefaultInstance (Reader : reader) : result paillier :=
  match rand_Prime Reader defaultKeySize with
  | (Err err, _) => Err err
  | (Ok p, Reader1) =>
      match rand_Prime Reader1 defaultKeySize with
      | (Err err, _) => Err err
      | (Ok q, Reader2) => Ok {| P := p; Q := q; randomReader := Reader2 |}
      end
  end.

Definition GetInstance (random : reader) (keySize : Z) : result paillier :=
  match rand_Prime random keySize with
  | (Err err, _) => Err err
  | (Ok p, random1) =>
      match rand_Prime random1 keySize with
      | (Err err, _) => Err err
      | (Ok q, random2) => Ok {| P := p; Q := q; randomReader := random2 |}
      end
  end.

(** *** The interface [PaillierScheme] as calls on one instance *)

Inductive call : Type :=
| CallEncrypt (key : PublicKey) (m : PrivateValue)
| CallDecrypt (key : PrivateKey) (c : PublicValue)
| CallGenKeypair
| CallAdd (a b : PublicValue) (key : PublicKey)
| CallMul (a : PublicValue) (b : Z) (key : PublicKey)
| CallSub (a b : PublicValue) (key : PublicKey).

Inductive reply : Type :=
| RetPublic (c : result PublicValue)
| RetPrivate (m : PrivateValue)
| RetKey (k : result PrivateKey).

(** One method call on the instance: what it returns and the instance
    afterwards.  A panic is kept as the reply, so that a caller which
    recovers can go on using the instance. *)
Definition invoke (p : paillier) (c : call) : reply * paillier :=
  match c with
  | CallEncrypt key m => let '(r, p') := Encrypt p key m in (RetPublic r, p')
  | CallDecrypt key c => (RetPrivate (Decrypt p key c), p)
  | CallGenKeypair => (RetKey (GenKeypair p), p)
  | CallAdd a b key => (RetPublic (Ok (Add p a b key)), p)
  | CallMul a b key => (RetPublic (Ok (Mul p a b key)), p)
  | CallSub a b key => (RetPublic (Sub p a b key), p)
  end.

Fixpoint run (p : paillier) (cs : list call) : list reply * paillier :=
  match cs with
  | [] => ([], p)
  | c :: cs' =>
      let '(r, p1) := invoke p c in
      let '(rs, p2) := run p1 cs' in
      (r :: rs, p2)
  end.

End Scheme.

Arguments paillier reader : clear implicits.

(** ** The worked example of the spec *)

(** The instance with [P = 3], [Q = 5] and a scripted reader, and the key
    pair the spec lists for it. *)
Definition vector_instance (script : list Z) : paillier (list Z) :=
  {| P := 3; Q := 5; randomReader := script |}.

Definition vector_key : PrivateKey :=
  {| PublicKey_of := {| P_n := 15; P_nn := 225; P_g := 16 |};
     P_h := 4;
     P_u := 4 |}.

(** ** What a ciphertext carries *)

(** [encodes key c m]: raising [c] to the private exponent gives
    [1 + m h n] modulo [n^2].  Every ciphertext of [m] has this property,
    the homomorphic operations preserve it, and it is all [Decrypt] needs. *)
Definition encodes (key : PrivateKey) (c m : Z) : Prop :=
  pow c (P_h key) (P_nn (PublicKey_of key)) =
  (1 + m * P_h key * P_n (PublicKey_of key)) mod P_nn (PublicKey_of key).

(** ** Ciphertexts built by the operations *)

Section Carries.

Context {reader : Type} `{EntropySource reader}.

Variable p : paillier reader.
Variable sk : PrivateKey.

(** [carries c m]: the ciphertext [c] was built, under the public key of
    [sk], from ciphertexts that [Encrypt] returned for draws coprime to [n]
    by [Add], [Mul] with a non-negative scalar and [Sub]; [m] is the same
    expression over the plaintexts. *)
Inductive carries : PublicValue -> Z -> Prop :=
| carries_Encrypt (e : paillier reader) (m r : Z) (rd : reader)
    (c : PublicValue) :
    0 <= m ->
    rand_Int (randomReader e) (P_n (PublicKey_of sk)) = (Ok r, rd) ->
    Z.coprime r (P_n (PublicKey_of sk)) ->
    Encrypt e (PublicKey_of sk) {| PrivateVal := m |}
    = (Ok c, with_reader e rd) ->
    carries c m
| carries_Add (a b : PublicValue) (ma mb : Z) :
    carries a ma -> carries b mb ->
    carries (Add p a b (PublicKey_of sk)) (ma + mb)
| carries_Mul (a : PublicValue) (ma k : Z) :
    carries a ma -> 0 <= k ->
    carries (Mul p a k (PublicKey_of sk)) (ma * k)
| carries_Sub (a b c : PublicValue) (ma mb : Z) :
    carries a ma -> carries b mb ->
    Sub p a b (PublicKey_of sk) = Ok c ->
    carries c (ma - mb).

End Carries.

(** * Verification *)

(** ** Number theory behind the scheme *)

Section NumberTheory.

(** The binomial fact the scheme rests on:
    [(1 + k n)^m = 1 + m k n] modulo [n^2]. *)
Lemma one_plus_pow (n k m : Z) :
  0 <= m -> (1 + k * n) ^ m mod (n * n) = (1 + m * k * n) mod (n * n).
Proof.
  intros Hm. pattern m. apply natlike_ind; [reflexivity | | exact Hm].
  clear m Hm. intros m Hm IH.
  destruct (Z.eq_dec n 0) as [-> | Hn].
  { rewrite !Z.mul_0_r, !Z.add_0_r, Z.pow_1_l by lia. reflexivity. }
  assert (Hnn : n * n <> 0) by nia.
  rewrite Z.pow_succ_r by exact Hm.
  rewrite <- Z.mul_mod_idemp_r, IH, Z.mul_mod_idemp_r by exact Hnn.
  replace ((1 + k * n) * (1 + m * k * n))
    with (1 + Z.succ m * k * n + (m * k * k) * (n * n)) by ring.
  apply Z_mod_plus_full.
Qed.

Lemma pow_mod_one (x modulus t : Z) :
  1 < modulus -> 0 <= t -> x mod modulus = 1 -> x ^ t mod modulus = 1.
Proof.
  intros Hm Ht Hx.
  rewrite <- Z.mod_pow_l, Hx, Z.pow_1_l by exact Ht.
  apply Z.mod_1_l, Hm.
Qed.

(** Fermat's little theorem lifted to the square of the prime. *)
Lemma fermat_square (p r : Z) :
  Z.prime p -> ~ (p | r) -> r ^ ((p - 1) * p) mod (p * p) = 1.
Proof.
  intros Hp Hr.
  pose proof (Z.prime_ge_2 _ Hp) as Hp2.
  assert (Hf : r ^ (p - 1) mod p = 1).
  { apply Z.fermat_nz; [exact Hp|].
    intros H0. apply Hr. apply Z.mod_divide; [lia | exact H0]. }
  rewrite Z.pow_mul_r by lia.
  pose proof (Z.div_mod (r ^ (p - 1)) p ltac:(lia)) as Hd.
  rewrite Hf in Hd.
  replace (r ^ (p - 1)) with (1 + (r ^ (p - 1) / p) * p) by lia.
  rewrite one_plus_pow by lia.
  replace (1 + p * (r ^ (p - 1) / p) * p)
    with (1 + (r ^ (p - 1) / p) * (p * p)) by ring.
  rewrite Z_mod_plus_full. apply Z.mod_1_l. nia.
Qed.

Lemma coprime_divide_mul (a b c : Z) :
  Z.coprime a b -> (a | c) -> (b | c) -> (a * b | c).
Proof.
  intros Hab [x ->] Hb.
  rewrite Z.mul_comm. apply Z.mul_divide_mono_r.
  apply Z.gauss with a; [rewrite Z.mul_comm; exact Hb|].
  rewrite Z.gcd_comm. exact Hab.
Qed.

Lemma coprime_mul_inv (a b c : Z) :
  Z.coprime a (b * c) -> Z.coprime a b /\ Z.coprime a c.
Proof.
  unfold Z.coprime. intros H.
  split; apply Z.bezout_1_gcd; apply Z.gcd_bezout in H; destruct H as (u & v & E).
  - exists u, (v * c). lia.
  - exists u, (v * b). lia.
Qed.

(** Every unit modulo [p q] has order dividing [p q t] modulo [(p q)^2]
    as soon as [t] is a common multiple of [p - 1] and [q - 1]. *)
Lemma unit_pow_one (p q r t : Z) :
  Z.prime p -> Z.prime q -> p <> q -> Z.coprime r (p * q) ->
  0 <= t -> (p - 1 | t) -> (q - 1 | t) ->
  r ^ (p * q * t) mod (p * q * (p * q)) = 1.
Proof.
  intros Hp Hq Hpq Hr Ht [a Ha] [b Hb].
  pose proof (Z.prime_ge_2 _ Hp) as Hp2.
  pose proof (Z.prime_ge_2 _ Hq) as Hq2.
  destruct (coprime_mul_inv _ _ _ Hr) as [Hrp Hrq].
  assert (Ha0 : 0 <= a) by nia.
  assert (Hb0 : 0 <= b) by nia.
  assert (H1 : r ^ (p * q * t) mod (p * p) = 1).
  { replace (p * q * t) with ((p - 1) * p * (q * a)) by (subst t; ring).
    rewrite Z.pow_mul_r by nia.
    apply pow_mod_one; [nia | nia |].
    apply fermat_square; [exact Hp|].
    apply Z.coprime_prime_l_iff; [exact Hp|].
    symmetry. exact Hrp. }
  assert (H2 : r ^ (p * q * t) mod (q * q) = 1).
  { replace (p * q * t) with ((q - 1) * q * (p * b)) by (rewrite Hb; ring).
    rewrite Z.pow_mul_r by nia.
    apply pow_mod_one; [nia | nia |].
    apply fermat_square; [exact Hq|].
    apply Z.coprime_prime_l_iff; [exact Hq|].
    symmetry. exact Hrq. }
  apply Znumtheory.Zdivide_mod_minus; [nia|].
  replace (p * q * (p * q)) with ((p * p) * (q * q)) by ring.
  apply coprime_divide_mul.
  - apply Z.coprime_mul_l; apply Z.coprime_mul_r;
      apply Z.coprime_prime_l; try assumption;
      intros Hd; apply Hpq; apply Z.divide_prime_prime; assumption.
  - apply Znumtheory.Zmod_divide_minus; [nia | exact H1].
  - apply Znumtheory.Zmod_divide_minus; [nia | exact H2].
Qed.

End NumberTheory.

(** ** The toolkit *)

Lemma rev_Ok (a modulus u : Z) :
  rev a modulus = Ok u ->
  Z.coprime a modulus /\ (a * u) mod modulus = 1 mod modulus /\
  u mod modulus = u.
Proof.
  unfold rev. destruct (Z.extgcd a modulus) as [[x y] d] eqn:E.
  apply Z.extgcd_correct in E. destruct E as [Hb Hd].
  destruct (Z.eqb_spec d 1) as [H1 | H1]; [|discriminate].
  intros [= <-]. split; [|split].
  - unfold Z.coprime. congruence.
  - destruct (Z.eq_dec modulus 0) as [-> | Hm].
    + rewrite !Z.mod_0_r. lia.
    + rewrite Z.mul_mod_idemp_r by exact Hm.
      replace (a * x) with (1 + (- y) * modulus) by lia.
      apply Z_mod_plus_full.
  - apply Zmod_mod.
Qed.

Lemma rev_Err (a modulus : Z) (e : error) :
  rev a modulus = Err e -> e = InverseError /\ Z.gcd a modulus <> 1.
Proof.
  unfold rev. destruct (Z.extgcd a modulus) as [[x y] d] eqn:E.
  apply Z.extgcd_correct in E. destruct E as [Hb Hd].
  destruct (Z.eqb_spec d 1) as [H1 | H1]; [discriminate|].
  intros [= <-]. split; [reflexivity | congruence].
Qed.

Lemma rev_coprime (a modulus : Z) :
  Z.coprime a modulus -> exists u, rev a modulus = Ok u.
Proof.
  intros Hc. destruct (rev a modulus) as [u | e] eqn:E; [eauto|].
  apply rev_Err in E. destruct E as [_ E]. contradiction.
Qed.

Lemma lcm_facts (a b : Z) :
  0 < a -> 0 < b -> 0 < lcm a b /\ (a | lcm a b) /\ (b | lcm a b).
Proof.
  intros Ha Hb. unfold lcm.
  pose proof (Z.gcd_nonneg a b) as Hg.
  assert (Hg0 : Z.gcd a b <> 0).
  { intros H0. apply Z.gcd_eq_0_l in H0. lia. }
  destruct (Z.gcd_divide_l a b) as [x Hx].
  destruct (Z.gcd_divide_r a b) as [y Hy].
  assert (Hab : a * b / Z.gcd a b = a * y).
  { rewrite Hy at 1. rewrite Z.mul_assoc. apply Z.div_mul, Hg0. }
  assert (Hba : a * b / Z.gcd a b = x * b).
  { rewrite Hx at 1. rewrite (Z.mul_comm x), <- Z.mul_assoc, Z.mul_comm.
    apply Z.div_mul, Hg0. }
  split; [|split].
  - rewrite Hab. nia.
  - rewrite Hab. exists y. ring.
  - rewrite Hba. exists x. ring.
Qed.

Lemma l_residue (n a : Z) :
  1 < n -> l ((1 + a * n) mod (n * n)) n = a mod n.
Proof.
  intros Hn. unfold l.
  pose proof (Z.div_mod a n ltac:(lia)) as Hd.
  pose proof (Z.mod_pos_bound a n ltac:(lia)) as Hb.
  replace (1 + a * n) with (1 + (a mod n) * n + (a / n) * (n * n)) by nia.
  rewrite Z_mod_plus_full, Z.mod_small by nia.
  replace (1 + a mod n * n - 1) with (a mod n * n) by ring.
  apply Z.div_mul. lia.
Qed.

(** ** Key pairs from two distinct primes *)

Section KeyPair.

Context {reader : Type} `{EntropySource reader}.

Variable p : paillier reader.
Variable sk : PrivateKey.

Hypothesis P_prime : Z.prime (P p).
Hypothesis Q_prime : Z.prime (Q p).
Hypothesis P_neq_Q : P p <> Q p.
Hypothesis generated : GenKeypair p = Ok sk.

Let n := P p * Q p.
Let h := lcm (dec (P p)) (dec (Q p)).

Lemma key_fields :
  PublicKey_of sk = {| P_n := n; P_nn := n * n; P_g := n + 1 |} /\
  P_h sk = h /\
  rev (l (pow (n + 1) h (n * n)) n) n = Ok (P_u sk).
Proof.
  pose proof generated as G. unfold GenKeypair in G.
  fold n in G. fold h in G. unfold square, inc in G.
  destruct (rev (l (pow (n + 1) h (n * n)) n) n) as [u | e]; [|discriminate].
  injection G as <-. simpl. auto.
Qed.

Lemma n_large : 1 < n.
Proof.
  pose proof (Z.prime_ge_2 _ P_prime). pose proof (Z.prime_ge_2 _ Q_prime).
  unfold n. nia.
Qed.

Lemma h_facts : 0 < h /\ (P p - 1 | h) /\ (Q p - 1 | h).
Proof.
  pose proof (Z.prime_ge_2 _ P_prime). pose proof (Z.prime_ge_2 _ Q_prime).
  apply lcm_facts; unfold dec; lia.
Qed.

Lemma hu_one : (h * P_u sk) mod n = 1.
Proof.
  destruct key_fields as (_ & _ & Hu).
  pose proof n_large as Hn. destruct h_facts as (Hh & _).
  unfold pow in Hu.
  replace (n + 1) with (1 + 1 * n) in Hu by ring.
  rewrite one_plus_pow in Hu by lia.
  replace (h * 1 * n) with (h * n) in Hu by ring.
  rewrite l_residue in Hu by exact Hn.
  apply rev_Ok in Hu. destruct Hu as (_ & Hu & _).
  rewrite Z.mul_mod_idemp_l, Z.mod_1_l in Hu by lia. exact Hu.
Qed.

Lemma unit_pow_h (r : Z) :
  Z.coprime r n -> r ^ (n * h) mod (n * n) = 1.
Proof.
  intros Hr. destruct h_facts as (Hh & H1 & H2).
  apply unit_pow_one; auto; lia.
Qed.

Lemma encodes_unfold (c m : Z) :
  encodes sk c m <-> c ^ h mod (n * n) = (1 + m * h * n) mod (n * n).
Proof.
  unfold encodes, pow. destruct key_fields as (-> & -> & _).
  cbn [P_n P_nn]. tauto.
Qed.

(** Decryption reads the plaintext off anything that encodes it. *)
Lemma Decrypt_encodes (c : PublicValue) (m : Z) :
  encodes sk (PublicVal c) m ->
  Decrypt p sk c = {| PrivateVal := m mod n |}.
Proof.
  intros He. pose proof n_large as Hn.
  unfold Decrypt. unfold encodes in He. rewrite He.
  destruct key_fields as (-> & -> & _). cbn [P_n P_nn].
  replace (m * h * n) with ((m * h) * n) by ring.
  rewrite l_residue by exact Hn.
  unfold bigMul. f_equal.
  rewrite Z.mul_mod_idemp_l by lia.
  rewrite <- Z.mul_assoc, <- Z.mul_mod_idemp_r, hu_one by lia.
  f_equal. ring.
Qed.

(** What [Encrypt] computes from plaintext [m] and blinding factor [r]. *)
Lemma encodes_ciphertext (m r : Z) :
  0 <= m -> Z.coprime r n ->
  encodes sk (bigMul (pow (n + 1) m (n * n)) (pow r n (n * n)) (n * n)) m.
Proof.
  intros Hm Hr. pose proof n_large as Hn. destruct h_facts as (Hh & _).
  assert (Hnn : n * n <> 0) by nia.
  apply encodes_unfold. unfold bigMul, pow.
  rewrite Z.mod_pow_l, Z.pow_mul_l, Z.mul_mod, !Z.mod_pow_l by exact Hnn.
  rewrite <- !Z.pow_mul_r, unit_pow_h by lia || assumption.
  replace (n + 1) with (1 + 1 * n) by ring.
  rewrite one_plus_pow by nia.
  rewrite Z.mul_1_r, Z.mod_mod by exact Hnn.
  f_equal. ring.
Qed.

Lemma encodes_mul (a b m1 m2 : Z) :
  encodes sk a m1 -> encodes sk b m2 ->
  encodes sk (bigMul a b (n * n)) (m1 + m2).
Proof.
  rewrite !encodes_unfold. intros Ha Hb. pose proof n_large as Hn.
  assert (Hnn : n * n <> 0) by nia.
  unfold bigMul.
  rewrite Z.mod_pow_l, Z.pow_mul_l, Z.mul_mod, Ha, Hb, <- Z.mul_mod
    by exact Hnn.
  replace ((1 + m1 * h * n) * (1 + m2 * h * n))
    with (1 + (m1 + m2) * h * n + (m1 * h * m2 * h) * (n * n)) by ring.
  apply Z_mod_plus_full.
Qed.

Lemma encodes_pow (a m k : Z) :
  0 <= k -> encodes sk a m -> encodes sk (pow a k (n * n)) (m * k).
Proof.
  rewrite !encodes_unfold. intros Hk Ha. pose proof n_large as Hn.
  destruct h_facts as (Hh & _).
  unfold pow.
  rewrite Z.mod_pow_l, <- Z.pow_mul_r, (Z.mul_comm k h), Z.pow_mul_r by lia.
  rewrite <- Z.mod_pow_l, Ha, Z.mod_pow_l.
  replace (m * h * n) with ((m * h) * n) by ring.
  rewrite one_plus_pow by exact Hk.
  f_equal. ring.
Qed.

Lemma encodes_inverse (b v m : Z) :
  encodes sk b m -> (b * v) mod (n * n) = 1 mod (n * n) ->
  encodes sk v (- m).
Proof.
  rewrite !encodes_unfold. intros Hb Hv. pose proof n_large as Hn.
  destruct h_facts as (Hh & _).
  assert (Hnn : n * n <> 0) by nia.
  assert (Hbv : (b ^ h * v ^ h) mod (n * n) = 1).
  { rewrite <- Z.pow_mul_l, <- Z.mod_pow_l, Hv, Z.mod_pow_l, Z.pow_1_l by lia.
    apply Z.mod_1_l. nia. }
  rewrite Z.mul_mod, Hb, <- Z.mul_mod in Hbv by exact Hnn.
  replace (v ^ h)
    with ((1 + m * h * n) * v ^ h * (1 + - m * h * n)
          + (v ^ h * (m * h * m * h)) * (n * n)) by ring.
  rewrite Z_mod_plus_full, <- Z.mul_mod_idemp_l, Hbv by exact Hnn.
  f_equal. ring.
Qed.

(** A ciphertext is a unit modulo [n^2]. *)
Lemma ciphertext_coprime (m r : Z) :
  0 <= m -> Z.coprime r n ->
  Z.coprime (bigMul (pow (n + 1) m (n * n)) (pow r n (n * n)) (n * n)) (n * n).
Proof.
  intros Hm Hr. pose proof n_large as Hn.
  unfold bigMul, pow.
  apply Z.coprime_mod_l_iff.
  apply Z.coprime_mul_l; apply Z.coprime_mod_l_iff;
    (apply Z.coprime_pow_l; [lia|]); apply Z.coprime_mul_r; try assumption;
    apply Z.bezout_1_gcd; exists 1, (-1); ring.
Qed.

End KeyPair.

(** ** Encryption with a given draw *)

Section Draws.

Context {reader : Type} `{EntropySource reader}.

(** [Encrypt] uses whatever [rand.Int] returns: no draw is rejected. *)
Lemma Encrypt_draw (e : paillier reader) (key : PublicKey) (m : PrivateValue)
    (r : Z) (rd : reader) :
  rand_Int (randomReader e) (P_n key) = (Ok r, rd) ->
  Encrypt e key m =
  (Ok {| PublicVal := bigMul (pow (P_g key) (PrivateVal m) (P_nn key))
                             (pow r (P_n key) (P_nn key)) (P_nn key) |},
   with_reader e rd).
Proof. unfold Encrypt. intros ->. reflexivity. Qed.

(** A ciphertext made under a generated key with a blinding factor coprime
    to [n] encodes its plaintext and is a unit modulo [n^2]. *)
Lemma Encrypt_encodes (p e : paillier reader) (sk : PrivateKey) (m r : Z)
    (rd : reader) :
  Z.prime (P p) -> Z.prime (Q p) -> P p <> Q p ->
  GenKeypair p = Ok sk ->
  0 <= m ->
  rand_Int (randomReader e) (P_n (PublicKey_of sk)) = (Ok r, rd) ->
  Z.coprime r (P_n (PublicKey_of sk)) ->
  exists c,
    Encrypt e (PublicKey_of sk) {| PrivateVal := m |} = (Ok c, with_reader e rd) /\
    encodes sk (PublicVal c) m /\
    Z.coprime (PublicVal c) (P_nn (PublicKey_of sk)).
Proof.
  intros HP HQ HPQ Hgen Hm Hr Hc.
  eexists. split; [apply Encrypt_draw, Hr|].
  destruct (key_fields p sk Hgen) as (Hpk & _).
  rewrite Hpk in Hc |- *. cbn [P_n P_nn P_g PublicVal PrivateVal] in Hc |- *.
  split.
  - apply (encodes_ciphertext p sk); assumption.
  - apply (ciphertext_coprime p); assumption.
Qed.

End Draws.

Lemma prime_5 : Z.prime 5.
Proof.
  split; [lia|]. intros d Hd [z Hz].
  assert (d = 2 \/ d = 3 \/ d = 4) as [-> | [-> | ->]] by lia; lia.
Qed.

(** * The claims *)

(** C1. Round trip: for a key pair that [GenKeypair] returns on an instance
    holding two distinct primes [P], [Q] (odd or not), a plaintext
    [0 <= m < n] and a draw [r] of [rand.Int] coprime to [n], [Encrypt]
    returns a ciphertext and [Decrypt] maps it back to [m].  [e] is the
    instance at the time of the encryption. *)
Theorem Decrypt_Encrypt_roundtrip {reader : Type} `{EntropySource reader}
    (p e : paillier reader) (sk : PrivateKey) (m r : Z) (rd : reader) :
  Z.prime (P p) -> Z.prime (Q p) -> P p <> Q p ->
  GenKeypair p = Ok sk ->
  0 <= m < P_n (PublicKey_of sk) ->
  rand_Int (randomReader e) (P_n (PublicKey_of sk)) = (Ok r, rd) ->
  Z.coprime r (P_n (PublicKey_of sk)) ->
  exists c,
    Encrypt e (PublicKey_of sk) {| PrivateVal := m |} = (Ok c, with_reader e rd) /\
    Decrypt p sk c = {| PrivateVal := m |}.
Proof.
  intros HP HQ HPQ Hgen Hm Hr Hc.
  destruct (Encrypt_encodes p e sk m r rd) as (c & HE & Henc & _);
    try assumption; [lia|].
  exists c. split; [exact HE|].
  rewrite (Decrypt_encodes p sk HP HQ HPQ Hgen c m Henc).
  destruct (key_fields p sk Hgen) as (Hpk & _).
  rewrite Hpk in Hm. cbn [P_n] in Hm.
  rewrite Z.mod_small by exact Hm. reflexivity.
Qed.

Lemma Decrypt_Encrypt_roundtrip_witness :
  exists c,
    Encrypt (vector_instance [7; 4]) (PublicKey_of vector_key)
      {| PrivateVal := 2 |}
    = (Ok c, with_reader (vector_instance [7; 4]) [4]) /\
    Decrypt (vector_instance [7; 4]) vector_key c = {| PrivateVal := 2 |}.
Proof.
  apply (Decrypt_Encrypt_roundtrip (vector_instance [7; 4])
           (vector_instance [7; 4]) vector_key 2 7 [4]).
  - exact Z.prime_3.
  - exact prime_5.
  - simpl; lia.
  - reflexivity.
  - simpl; lia.
  - reflexivity.
  - reflexivity.
Defined.

(** C2. Additive homomorphism: [Add] returns [(a * b) mod n^2] for any
    operands and key; and for a key pair generated from two distinct primes,
    plaintexts [m1], [m2] in [[0, n)] and draws [r1], [r2] coprime to [n],
    the sum of the two ciphertexts decrypts to [(m1 + m2) mod n]. *)
Theorem Add_homomorphic {reader : Type} `{EntropySource reader}
    (p e1 e2 : paillier reader) (sk : PrivateKey) (m1 m2 r1 r2 : Z)
    (rd1 rd2 : reader) :
  Z.prime (P p) -> Z.prime (Q p) -> P p <> Q p ->
  GenKeypair p = Ok sk ->
  0 <= m1 < P_n (PublicKey_of sk) ->
  0 <= m2 < P_n (PublicKey_of sk) ->
  rand_Int (randomReader e1) (P_n (PublicKey_of sk)) = (Ok r1, rd1) ->
  Z.coprime r1 (P_n (PublicKey_of sk)) ->
  rand_Int (randomReader e2) (P_n (PublicKey_of sk)) = (Ok r2, rd2) ->
  Z.coprime r2 (P_n (PublicKey_of sk)) ->
  (forall (a b : PublicValue) (key : PublicKey),
      Add p a b key =
      {| PublicVal := (PublicVal a * PublicVal b) mod P_nn key |}) /\
  exists c1 c2,
    Encrypt e1 (PublicKey_of sk) {| PrivateVal := m1 |}
    = (Ok c1, with_reader e1 rd1) /\
    Encrypt e2 (PublicKey_of sk) {| PrivateVal := m2 |}
    = (Ok c2, with_reader e2 rd2) /\
    Decrypt p sk (Add p c1 c2 (PublicKey_of sk))
    = {| PrivateVal := (m1 + m2) mod P_n (PublicKey_of sk) |}.
Proof.
  intros HP HQ HPQ Hgen Hm1 Hm2 Hr1 Hc1 Hr2 Hc2.
  split; [reflexivity|].
  destruct (Encrypt_encodes p e1 sk m1 r1 rd1) as (c1 & HE1 & Henc1 & _);
    try assumption; [lia|].
  destruct (Encrypt_encodes p e2 sk m2 r2 rd2) as (c2 & HE2 & Henc2 & _);
    try assumption; [lia|].
  exists c1, c2. split; [exact HE1|]. split; [exact HE2|].
  destruct (key_fields p sk Hgen) as (Hpk & _).
  rewrite (Decrypt_encodes p sk HP HQ HPQ Hgen _ (m1 + m2)).
  - rewrite Hpk. reflexivity.
  - unfold Add. rewrite Hpk. cbn [P_nn PublicVal].
    apply encodes_mul; assumption.
Qed.

Lemma Add_homomorphic_witness :
  (forall (a b : PublicValue) (key : PublicKey),
      Add (vector_instance [7; 4]) a b key =
      {| PublicVal := (PublicVal a * PublicVal b) mod P_nn key |}) /\
  exists c1 c2,
    Encrypt (vector_instance [7; 4]) (PublicKey_of vector_key)
      {| PrivateVal := 2 |}
    = (Ok c1, with_reader (vector_instance [7; 4]) [4]) /\
    Encrypt (vector_instance [4]) (PublicKey_of vector_key)
      {| PrivateVal := 3 |}
    = (Ok c2, with_reader (vector_instance [4]) []) /\
    Decrypt (vector_instance [7; 4]) vector_key
      (Add (vector_instance [7; 4]) c1 c2 (PublicKey_of vector_key))
    = {| PrivateVal := (2 + 3) mod P_n (PublicKey_of vector_key) |}.
Proof.
  apply (Add_homomorphic (vector_instance [7; 4]) (vector_instance [7; 4])
           (vector_instance [4]) vector_key 2 3 7 4 [4] []).
  - exact Z.prime_3.
  - exact prime_5.
  - simpl; lia.
  - reflexivity.
  - simpl; lia.
  - simpl; lia.
  - reflexivity.
  - reflexivity.
  - reflexivity.
  - reflexivity.
Defined.

(** C3. Homomorphic subtraction: [Sub a b key] is [Add] of [a] and the
    inverse of [b] modulo [n^2] (and the error of [rev] when there is none);
    and for a key pair generated from two distinct primes, plaintexts [m1],
    [m2] in [[0, n)] and draws coprime to [n], [Sub] of the two ciphertexts
    succeeds and decrypts to [(m1 - m2) mod n], which is [m1 - m2 + n] when
    [m1 < m2]. *)
Theorem Sub_homomorphic {reader : Type} `{EntropySource reader}
    (p e1 e2 : paillier reader) (sk : PrivateKey) (m1 m2 r1 r2 : Z)
    (rd1 rd2 : reader) :
  Z.prime (P p) -> Z.prime (Q p) -> P p <> Q p ->
  GenKeypair p = Ok sk ->
  0 <= m1 < P_n (PublicKey_of sk) ->
  0 <= m2 < P_n (PublicKey_of sk) ->
  rand_Int (randomReader e1) (P_n (PublicKey_of sk)) = (Ok r1, rd1) ->
  Z.coprime r1 (P_n (PublicKey_of sk)) ->
  rand_Int (randomReader e2) (P_n (PublicKey_of sk)) = (Ok r2, rd2) ->
  Z.coprime r2 (P_n (PublicKey_of sk)) ->
  (forall (a b : PublicValue) (key : PublicKey),
      Sub p a b key =
      match rev (PublicVal b) (P_nn key) with
      | Ok revB => Ok (Add p a {| PublicVal := revB |} key)
      | Err err => Err err
      end) /\
  exists c1 c2 c,
    Encrypt e1 (PublicKey_of sk) {| PrivateVal := m1 |}
    = (Ok c1, with_reader e1 rd1) /\
    Encrypt e2 (PublicKey_of sk) {| PrivateVal := m2 |}
    = (Ok c2, with_reader e2 rd2) /\
    Sub p c1 c2 (PublicKey_of sk) = Ok c /\
    Decrypt p sk c
    = {| PrivateVal := (m1 - m2) mod P_n (PublicKey_of sk) |} /\
    (m1 < m2 ->
     (m1 - m2) mod P_n (PublicKey_of sk) = m1 - m2 + P_n (PublicKey_of sk)).
Proof.
  intros HP HQ HPQ Hgen Hm1 Hm2 Hr1 Hc1 Hr2 Hc2.
  split; [reflexivity|].
  destruct (Encrypt_encodes p e1 sk m1 r1 rd1) as (c1 & HE1 & Henc1 & _);
    try assumption; [lia|].
  destruct (Encrypt_encodes p e2 sk m2 r2 rd2) as (c2 & HE2 & Henc2 & Hu2);
    try assumption; [lia|].
  destruct (rev_coprime _ _ Hu2) as (v & Hv).
  exists c1, c2, {| PublicVal := bigMul (PublicVal c1) v
                                  (P_nn (PublicKey_of sk)) |}.
  split; [exact HE1|]. split; [exact HE2|].
  split; [unfold Sub; rewrite Hv; reflexivity|].
  destruct (key_fields p sk Hgen) as (Hpk & _).
  split.
  - rewrite (Decrypt_encodes p sk HP HQ HPQ Hgen _ (m1 + - m2)).
    + rewrite Hpk. reflexivity.
    + apply rev_Ok in Hv. destruct Hv as (_ & Hv & _).
      rewrite Hpk in Hv |- *. cbn [P_nn PublicVal] in Hv |- *.
      apply encodes_mul; try assumption.
      apply (encodes_inverse p sk HP HQ HPQ Hgen (PublicVal c2)); assumption.
  - intros Hlt.
    symmetry. apply Z.mod_unique with (-1); lia.
Qed.

Lemma Sub_homomorphic_witness :
  (forall (a b : PublicValue) (key : PublicKey),
      Sub (vector_instance [7; 4]) a b key =
      match rev (PublicVal b) (P_nn key) with
      | Ok revB => Ok (Add (vector_instance [7; 4]) a {| PublicVal := revB |} key)
      | Err err => Err err
      end) /\
  exists c1 c2 c,
    Encrypt (vector_instance [7; 4]) (PublicKey_of vector_key)
      {| PrivateVal := 2 |}
    = (Ok c1, with_reader (vector_instance [7; 4]) [4]) /\
    Encrypt (vector_instance [4]) (PublicKey_of vector_key)
      {| PrivateVal := 3 |}
    = (Ok c2, with_reader (vector_instance [4]) []) /\
    Sub (vector_instance [7; 4]) c1 c2 (PublicKey_of vector_key) = Ok c /\
    Decrypt (vector_instance [7; 4]) vector_key c
    = {| PrivateVal := (2 - 3) mod P_n (PublicKey_of vector_key) |} /\
    (2 < 3 ->
     (2 - 3) mod P_n (PublicKey_of vector_key)
     = 2 - 3 + P_n (PublicKey_of vector_key)).
Proof.
  apply (Sub_homomorphic (vector_instance [7; 4]) (vector_instance [7; 4])
           (vector_instance [4]) vector_key 2 3 7 4 [4] []).
  - exact Z.prime_3.
  - exact prime_5.
  - simpl; lia.
  - reflexivity.
  - simpl; lia.
  - simpl; lia.
  - reflexivity.
  - reflexivity.
  - reflexivity.
  - reflexivity.
Defined.

(** C5. Inverse failure: [Sub a b key] stops with [InverseError] exactly when
    [b] is not coprime to [n^2], and with no other error; when [b] is
    coprime to [n^2] it returns [c] with [c * b = a] modulo [n^2], and
    [0 <= c < n^2] for a positive modulus. *)
Theorem Sub_inverse_failure {reader : Type} (p : paillier reader)
    (a b : PublicValue) (key : PublicKey) :
  (Sub p a b key = Err InverseError <->
   ~ Z.coprime (PublicVal b) (P_nn key)) /\
  (forall err, Sub p a b key = Err err -> err = InverseError) /\
  (Z.coprime (PublicVal b) (P_nn key) ->
   exists c,
     Sub p a b key = Ok c /\
     (PublicVal c * PublicVal b) mod P_nn key = PublicVal a mod P_nn key /\
     (0 < P_nn key -> 0 <= PublicVal c < P_nn key)).
Proof.
  unfold Sub.
  destruct (rev (PublicVal b) (P_nn key)) as [v | e] eqn:E.
  - pose proof (rev_Ok _ _ _ E) as (Hc & Hv & _).
    split; [|split].
    + split; [discriminate | contradiction].
    + discriminate.
    + intros _. eexists. split; [reflexivity|]. cbn [PublicVal]. split.
      * unfold bigMul.
        destruct (Z.eq_dec (P_nn key) 0) as [E0 | E0].
        { rewrite E0, !Z.mod_0_r in Hv |- *.
          replace (PublicVal a * v * PublicVal b)
            with (PublicVal a * (PublicVal b * v)) by ring.
          rewrite Hv, Z.mod_0_r. ring. }
        rewrite Z.mul_mod_idemp_l by exact E0.
        replace (PublicVal a * v * PublicVal b)
          with (PublicVal a * (PublicVal b * v)) by ring.
        rewrite <- Z.mul_mod_idemp_r, Hv, Z.mul_mod_idemp_r by exact E0.
        f_equal. ring.
      * intros Hpos. apply Z.mod_pos_bound, Hpos.
  - pose proof (rev_Err _ _ _ E) as (-> & Hg).
    split; [|split].
    + split; [intros _; exact Hg | reflexivity].
    + intros err [= <-]. reflexivity.
    + intros Hc. contradiction.
Qed.

Lemma Sub_inverse_failure_witness :
  (Sub (vector_instance []) {| PublicVal := 58 |} {| PublicVal := 15 |}
     (PublicKey_of vector_key) = Err InverseError <->
   ~ Z.coprime 15 225) /\
  exists c,
    Sub (vector_instance []) {| PublicVal := 58 |} {| PublicVal := 154 |}
      (PublicKey_of vector_key) = Ok c /\
    (PublicVal c * 154) mod 225 = 58 mod 225 /\
    (0 < 225 -> 0 <= PublicVal c < 225).
Proof.
  split.
  - exact (proj1 (Sub_inverse_failure (vector_instance [])
                    {| PublicVal := 58 |} {| PublicVal := 15 |}
                    (PublicKey_of vector_key))).
  - apply (proj2 (proj2 (Sub_inverse_failure (vector_instance [])
                    {| PublicVal := 58 |} {| PublicVal := 154 |}
                    (PublicKey_of vector_key)))).
    reflexivity.
Defined.

(** C6. Key generation: on an instance holding [P] and [Q], with
    [n = P * Q], [g = n + 1] and [h = lcm (P - 1) (Q - 1)], [GenKeypair]
    inverts [t = l (pow g h (n * n)) n] modulo [n]; when the inverse [u]
    exists it returns the private key [(n, n * n, g), h, u], and when it does
    not it stops with [InverseError] and returns no key. *)
Theorem GenKeypair_algorithm {reader : Type} (p : paillier reader) :
  let n := P p * Q p in
  let g := n + 1 in
  let h := lcm (P p - 1) (Q p - 1) in
  let t := l (pow g h (n * n)) n in
  match rev t n with
  | Ok u =>
      GenKeypair p =
      Ok {| PublicKey_of := {| P_n := n; P_nn := n * n; P_g := g |};
            P_h := h;
            P_u := u |} /\
      Z.coprime t n /\ (t * u) mod n = 1 mod n
  | Err err =>
      GenKeypair p = Err InverseError /\ err = InverseError /\
      ~ Z.coprime t n /\ forall sk, GenKeypair p <> Ok sk
  end.
Proof.
  intros n g h t. unfold GenKeypair, square, inc, dec.
  fold n. fold g. fold h. fold t.
  destruct (rev t n) as [u | e] eqn:E.
  - apply rev_Ok in E. destruct E as (Hc & Hu & _). auto.
  - apply rev_Err in E. destruct E as (-> & Hg).
    repeat split; [exact Hg | discriminate].
Qed.

(** C7. The vector of the spec: [P = 3], [Q = 5] give [n = 15],
    [n^2 = 225], [g = 16], [h = 4], [u = 4]; plaintext 2 with draw 7
    encrypts to 58 and 58 decrypts to 2; plaintext 3 with draw 4 encrypts to
    154 and 154 decrypts to 3; [Add] of 58 and 154 is 157, which decrypts to
    [5 = (2 + 3) mod 15]. *)
Theorem concrete_vector :
  GenKeypair (vector_instance [7; 4]) =
  Ok {| PublicKey_of := {| P_n := 15; P_nn := 225; P_g := 16 |};
        P_h := 4; P_u := 4 |} /\
  Encrypt (vector_instance [7; 4]) (PublicKey_of vector_key)
    {| PrivateVal := 2 |}
  = (Ok {| PublicVal := 58 |}, vector_instance [4]) /\
  Decrypt (vector_instance [4]) vector_key {| PublicVal := 58 |}
  = {| PrivateVal := 2 |} /\
  Encrypt (vector_instance [4]) (PublicKey_of vector_key)
    {| PrivateVal := 3 |}
  = (Ok {| PublicVal := 154 |}, vector_instance []) /\
  Decrypt (vector_instance []) vector_key {| PublicVal := 154 |}
  = {| PrivateVal := 3 |} /\
  Add (vector_instance []) {| PublicVal := 58 |} {| PublicVal := 154 |}
    (PublicKey_of vector_key)
  = {| PublicVal := 157 |} /\
  Decrypt (vector_instance []) vector_key {| PublicVal := 157 |}
  = {| PrivateVal := 5 |} /\
  (2 + 3) mod 15 = 5.
Proof. repeat split. Qed.

(** The spec's remark that the inverse can only fail for invalid primes does
    not hold for primes of different lengths: 3 divides [7 - 1]. *)
Example GenKeypair_fails_on_3_7 :
  GenKeypair {| P := 3; Q := 7; randomReader := @nil Z |} = Err InverseError.
Proof. reflexivity. Qed.

(** ** Bit lengths *)

Lemma BitLen_bounds (x bits : Z) :
  0 < x -> BitLen x = bits -> 2 ^ (bits - 1) <= x < 2 ^ bits.
Proof.
  intros Hx <-. unfold BitLen.
  destruct (Z.eqb_spec x 0) as [E | _]; [lia|].
  rewrite Z.abs_eq by lia.
  replace (Z.log2 x + 1 - 1) with (Z.log2 x) by ring.
  apply Z.log2_spec, Hx.
Qed.

Lemma BitLen_product (x y bits : Z) :
  0 < x -> 0 < y -> BitLen x = bits -> BitLen y = bits ->
  2 * bits - 1 <= BitLen (x * y) <= 2 * bits.
Proof.
  intros Hx Hy Bx By.
  pose proof (BitLen_bounds x bits Hx Bx) as [Lx Ux].
  pose proof (BitLen_bounds y bits Hy By) as [Ly Uy].
  assert (Hb : 1 <= bits).
  { subst bits. unfold BitLen. destruct (Z.eqb_spec x 0); [lia|].
    pose proof (Z.log2_nonneg (Z.abs x)). lia. }
  assert (Hxy : 0 < x * y) by nia.
  assert (HL : 2 ^ (2 * bits - 2) <= x * y).
  { replace (2 * bits - 2) with ((bits - 1) + (bits - 1)) by ring.
    rewrite Z.pow_add_r by lia.
    assert (0 < 2 ^ (bits - 1)) by (apply Z.pow_pos_nonneg; lia). nia. }
  assert (HU : x * y < 2 ^ (2 * bits)).
  { replace (2 * bits) with (bits + bits) by ring.
    rewrite Z.pow_add_r by lia. nia. }
  unfold BitLen. destruct (Z.eqb_spec (x * y) 0) as [E | _]; [lia|].
  rewrite Z.abs_eq by lia.
  apply Z.log2_le_pow2 in HL; [|exact Hxy].
  apply Z.log2_lt_pow2 in HU; [|exact Hxy].
  lia.
Qed.

Section Construction.

Context {reader : Type} `{EntropySource reader}.

Lemma GetInstance_draws (random : reader) (keySize : Z) (p : paillier reader) :
  GetInstance random keySize = Ok p ->
  exists random1,
    rand_Prime random keySize = (Ok (P p), random1) /\
    rand_Prime random1 keySize = (Ok (Q p), randomReader p).
Proof.
  unfold GetInstance.
  destruct (rand_Prime random keySize) as [[x | e] random1] eqn:E1;
    [|discriminate].
  destruct (rand_Prime random1 keySize) as [[y | e] random2] eqn:E2;
    [|discriminate].
  intros [= <-]. exists random1. auto.
Qed.

Lemma GetInstance_bits (random : reader) (keySize : Z) (p : paillier reader) :
  GetInstance random keySize = Ok p ->
  2 <= keySize /\
  BitLen (P p) = keySize /\ BitLen (Q p) = keySize /\
  2 * keySize - 1 <= BitLen (P p * Q p) <= 2 * keySize.
Proof.
  intros Hp. destruct (GetInstance_draws _ _ _ Hp) as (random1 & E1 & E2).
  apply rand_Prime_bits in E1, E2.
  destruct E1 as (Hk & HP & BP), E2 as (_ & HQ & BQ).
  repeat split; try assumption; apply BitLen_product; assumption.
Qed.

End Construction.

(** ** Key generation on primes of one length *)

Lemma lcm_divide_mul (a b : Z) : 0 < a -> 0 < b -> (lcm a b | a * b).
Proof.
  intros Ha Hb. unfold lcm.
  assert (Hg0 : Z.gcd a b <> 0).
  { intros H0. apply Z.gcd_eq_0_l in H0. lia. }
  destruct (Z.gcd_divide_r a b) as [y Hy].
  assert (Hab : a * b / Z.gcd a b = a * y).
  { rewrite Hy at 1. rewrite Z.mul_assoc. apply Z.div_mul, Hg0. }
  exists (Z.gcd a b). rewrite Hab. rewrite Hy at 1. ring.
Qed.

Lemma prime_not_divide_lcm (x y bits : Z) :
  Z.prime x -> Z.prime y -> Z.odd x = true -> Z.odd y = true ->
  BitLen x = bits -> BitLen y = bits ->
  ~ (x | lcm (x - 1) (y - 1)).
Proof.
  intros Hx Hy Ox Oy Bx By Hd.
  pose proof (Z.prime_ge_2 _ Hx) as Hx2.
  pose proof (Z.prime_ge_2 _ Hy) as Hy2.
  pose proof (BitLen_bounds x bits ltac:(lia) Bx) as [Lx Ux].
  pose proof (BitLen_bounds y bits ltac:(lia) By) as [Ly Uy].
  assert (Hb : 1 <= bits).
  { subst bits. unfold BitLen. destruct (Z.eqb_spec x 0); [lia|].
    pose proof (Z.log2_nonneg (Z.abs x)). lia. }
  assert (H2 : 2 ^ bits = 2 * 2 ^ (bits - 1)).
  { replace bits with (Z.succ (bits - 1)) at 1 by lia.
    apply Z.pow_succ_r. lia. }
  apply Z.divide_trans with (p := (x - 1) * (y - 1)) in Hd;
    [|apply lcm_divide_mul; lia].
  apply Z.divide_prime_mul in Hd; [|exact Hx].
  destruct Hd as [Hd | Hd].
  - apply Z.divide_pos_le in Hd; lia.
  - destruct Hd as [k Hk].
    apply Z.odd_spec in Ox, Oy.
    destruct Ox as [i Hi], Oy as [j Hj].
    assert (k = 1 \/ 2 <= k) as [-> | Hk2] by nia; [lia | nia].
Qed.

(** For two distinct odd primes of one bit length, as the constructors draw
    them, the inverse in [GenKeypair] exists and a key pair is returned. *)
Lemma GenKeypair_succeeds {reader : Type} (p : paillier reader) (bits : Z) :
  Z.prime (P p) -> Z.prime (Q p) -> P p <> Q p ->
  Z.odd (P p) = true -> Z.odd (Q p) = true ->
  BitLen (P p) = bits -> BitLen (Q p) = bits ->
  exists sk, GenKeypair p = Ok sk.
Proof.
  intros HP HQ HPQ OP OQ BP BQ.
  pose proof (Z.prime_ge_2 _ HP) as HP2.
  pose proof (Z.prime_ge_2 _ HQ) as HQ2.
  unfold GenKeypair, square, inc, dec.
  destruct (rev _ _) as [u | e] eqn:E; [eauto|].
  apply rev_Err in E. destruct E as (_ & Hn). exfalso. apply Hn. clear Hn.
  change (Z.coprime
            (l (pow (P p * Q p + 1) (lcm (P p - 1) (Q p - 1))
                  (P p * Q p * (P p * Q p))) (P p * Q p)) (P p * Q p)).
  destruct (lcm_facts (P p - 1) (Q p - 1)) as (Hl & _); [lia | lia |].
  unfold pow.
  replace (P p * Q p + 1) with (1 + 1 * (P p * Q p)) by ring.
  rewrite one_plus_pow by lia.
  replace (lcm (P p - 1) (Q p - 1) * 1 * (P p * Q p))
    with (lcm (P p - 1) (Q p - 1) * (P p * Q p)) by ring.
  rewrite l_residue by nia.
  apply Z.coprime_mod_l_iff.
  apply Z.coprime_mul_r; symmetry; apply Z.coprime_prime_l; try assumption.
  - apply prime_not_divide_lcm with bits; assumption.
  - unfold lcm. rewrite Z.mul_comm, Z.gcd_comm.
    apply (prime_not_divide_lcm (Q p) (P p) bits); assumption.
Qed.

(** C8. Default construction: the default bit length is 128 and
    [GetDefaultInstance] is [GetInstance] at that length on the system
    reader; in both constructors each of [P] and [Q] is a draw of
    [rand.Prime] at the configured length and so has exactly that bit
    length, while [n = P * Q] has about twice that length, never the
    configured one. *)
Theorem key_size_per_prime {reader : Type} `{EntropySource reader} :
  defaultKeySize = 128 /\
  (forall Reader : reader,
      GetDefaultInstance Reader = GetInstance Reader defaultKeySize) /\
  (forall (Reader : reader) (p : paillier reader),
      GetDefaultInstance Reader = Ok p ->
      BitLen (P p) = 128 /\ BitLen (Q p) = 128 /\
      255 <= BitLen (P p * Q p) <= 256) /\
  (forall (random : reader) (keySize : Z) (p : paillier reader),
      GetInstance random keySize = Ok p ->
      (exists random1,
          rand_Prime random keySize = (Ok (P p), random1) /\
          rand_Prime random1 keySize = (Ok (Q p), randomReader p)) /\
      BitLen (P p) = keySize /\ BitLen (Q p) = keySize /\
      2 * keySize - 1 <= BitLen (P p * Q p) <= 2 * keySize /\
      BitLen (P p * Q p) <> keySize).
Proof.
  split; [reflexivity|]. split; [reflexivity|]. split.
  - intros Reader p Hp.
    change (GetDefaultInstance Reader) with (GetInstance Reader 128) in Hp.
    apply GetInstance_bits in Hp. destruct Hp as (_ & HP & HQ & Hn).
    repeat split; try assumption; lia.
  - intros random keySize p Hp.
    split; [apply GetInstance_draws, Hp|].
    apply GetInstance_bits in Hp. destruct Hp as (Hk & HP & HQ & Hn).
    repeat split; try assumption; lia.
Qed.

Lemma key_size_per_prime_witness :
  (BitLen (2 ^ 128 - 159) = 128 /\ BitLen (2 ^ 128 - 173) = 128 /\
   255 <= BitLen ((2 ^ 128 - 159) * (2 ^ 128 - 173)) <= 256) /\
  ((exists random1,
       rand_Prime [5; 7; 4] 3 = (Ok 5, random1) /\
       rand_Prime random1 3 = (Ok 7, [4])) /\
   BitLen 5 = 3 /\ BitLen 7 = 3 /\
   2 * 3 - 1 <= BitLen (5 * 7) <= 2 * 3 /\ BitLen (5 * 7) <> 3).
Proof.
  split.
  - apply (proj1 (proj2 (proj2 (@key_size_per_prime (list Z) tape_source)))
             [2 ^ 128 - 159; 2 ^ 128 - 173]
             {| P := 2 ^ 128 - 159; Q := 2 ^ 128 - 173;
                randomReader := [] |}).
    reflexivity.
  - apply (proj2 (proj2 (proj2 (@key_size_per_prime (list Z) tape_source)))
             [5; 7; 4] 3 {| P := 5; Q := 7; randomReader := [4] |}).
    reflexivity.
Defined.

(** ** Calls on one instance *)

Section Calls.

Context {reader : Type} `{EntropySource reader}.

Lemma GenKeypair_primes (p1 p2 : paillier reader) :
  P p1 = P p2 -> Q p1 = Q p2 -> GenKeypair p1 = GenKeypair p2.
Proof. unfold GenKeypair. intros -> ->. reflexivity. Qed.

Lemma Encrypt_primes (p : paillier reader) (key : PublicKey)
    (m : PrivateValue) :
  P (snd (Encrypt p key m)) = P p /\ Q (snd (Encrypt p key m)) = Q p.
Proof.
  unfold Encrypt.
  destruct (rand_Int (randomReader p) (P_n key)) as [[r | e] rd];
    split; reflexivity.
Qed.

Lemma invoke_primes (p : paillier reader) (c : call) :
  P (snd (invoke p c)) = P p /\ Q (snd (invoke p c)) = Q p.
Proof.
  destruct c as [key m | key c | | a b key | a b key | a b key]; simpl;
    try (split; reflexivity).
  pose proof (Encrypt_primes p key m) as HE.
  destruct (Encrypt p key m) as [r p']. exact HE.
Qed.

Lemma invoke_key (p : paillier reader) (c : call) (k : result PrivateKey) :
  fst (invoke p c) = RetKey k -> k = GenKeypair p.
Proof.
  destruct c as [key m | key c | | a b key | a b key | a b key]; simpl;
    try discriminate.
  - destruct (Encrypt p key m) as [r p']. discriminate.
  - intros [= <-]. reflexivity.
Qed.

Lemma run_primes (cs : list call) (p : paillier reader) :
  P (snd (run p cs)) = P p /\ Q (snd (run p cs)) = Q p.
Proof.
  revert p. induction cs as [|c cs IH]; intros p; simpl; [auto|].
  pose proof (invoke_primes p c) as [HP HQ].
  destruct (invoke p c) as [r p1]. simpl in HP, HQ.
  specialize (IH p1). destruct (run p1 cs) as [rs p2]. simpl in IH |- *.
  destruct IH as [IP IQ]. split; congruence.
Qed.

Lemma run_keys (cs : list call) (p : paillier reader) :
  Forall (fun r => forall k, r = RetKey k -> k = GenKeypair p)
         (fst (run p cs)).
Proof.
  revert p. induction cs as [|c cs IH]; intros p; simpl; [constructor|].
  pose proof (invoke_primes p c) as [HP HQ].
  pose proof (invoke_key p c) as HK.
  destruct (invoke p c) as [r p1]. simpl in HP, HQ, HK.
  specialize (IH p1). destruct (run p1 cs) as [rs p2]. simpl in IH |- *.
  constructor; [exact HK|].
  rewrite (GenKeypair_primes p p1) by congruence. exact IH.
Qed.

End Calls.

(** C9. One key pair per instance: the constructor draws [P] and [Q] once
    and stores them; no call of the interface changes them; [GenKeypair]
    depends on nothing else.  So in any sequence of calls on an instance
    every [GenKeypair] returns the same result, and so does a [GenKeypair]
    after the sequence. *)
Theorem one_keypair_per_instance {reader : Type} `{EntropySource reader}
    (p : paillier reader) (cs : list call) :
  (forall random keySize,
      GetInstance random keySize = Ok p ->
      exists random1,
        rand_Prime random keySize = (Ok (P p), random1) /\
        rand_Prime random1 keySize = (Ok (Q p), randomReader p)) /\
  (forall p2 : paillier reader,
      P p2 = P p -> Q p2 = Q p -> GenKeypair p2 = GenKeypair p) /\
  P (snd (run p cs)) = P p /\
  Q (snd (run p cs)) = Q p /\
  Forall (fun r => forall k, r = RetKey k -> k = GenKeypair p)
         (fst (run p cs)) /\
  GenKeypair (snd (run p cs)) = GenKeypair p.
Proof.
  pose proof (run_primes cs p) as [HP HQ].
  split; [intros random keySize; apply GetInstance_draws|].
  split; [intros p2; apply GenKeypair_primes|].
  split; [exact HP|]. split; [exact HQ|].
  split; [apply run_keys|].
  apply GenKeypair_primes; assumption.
Qed.

Lemma one_keypair_per_instance_witness :
  fst (run (vector_instance [7; 4])
         [CallGenKeypair;
          CallEncrypt (PublicKey_of vector_key) {| PrivateVal := 2 |};
          CallGenKeypair])
  = [RetKey (Ok vector_key); RetPublic (Ok {| PublicVal := 58 |});
     RetKey (Ok vector_key)] /\
  GenKeypair (snd (run (vector_instance [7; 4])
         [CallGenKeypair;
          CallEncrypt (PublicKey_of vector_key) {| PrivateVal := 2 |};
          CallGenKeypair]))
  = GenKeypair (vector_instance [7; 4]).
Proof.
  split; [reflexivity|].
  apply (one_keypair_per_instance (vector_instance [7; 4])).
Defined.

(** C10. Unchecked blinding factor: [Encrypt] uses any draw that [rand.Int]
    returns.  The draw 0 is never coprime to [n]; with it the ciphertext is
    0 whatever the plaintext, so [Decrypt] returns one fixed value and the
    round trip fails for every other plaintext, and for at least one
    plaintext in [[0, n)]. *)
Theorem Encrypt_unchecked_blinding {reader : Type} `{EntropySource reader}
    (p e : paillier reader) (sk : PrivateKey) (rd : reader) :
  Z.prime (P p) -> Z.prime (Q p) -> P p <> Q p ->
  GenKeypair p = Ok sk ->
  rand_Int (randomReader e) (P_n (PublicKey_of sk)) = (Ok 0, rd) ->
  (forall (e' : paillier reader) key m r rd',
      rand_Int (randomReader e') (P_n key) = (Ok r, rd') ->
      Encrypt e' key m =
      (Ok {| PublicVal := bigMul (pow (P_g key) (PrivateVal m) (P_nn key))
                                 (pow r (P_n key) (P_nn key)) (P_nn key) |},
       with_reader e' rd')) /\
  ~ Z.coprime 0 (P_n (PublicKey_of sk)) /\
  pow 0 (P_n (PublicKey_of sk)) (P_nn (PublicKey_of sk)) = 0 /\
  (forall m,
      Encrypt e (PublicKey_of sk) m
      = (Ok {| PublicVal := 0 |}, with_reader e rd)) /\
  (forall m,
      {| PrivateVal := m |} <> Decrypt p sk {| PublicVal := 0 |} ->
      exists c,
        Encrypt e (PublicKey_of sk) {| PrivateVal := m |}
        = (Ok c, with_reader e rd) /\
        Decrypt p sk c <> {| PrivateVal := m |}) /\
  (exists m c,
      0 <= m < P_n (PublicKey_of sk) /\
      Encrypt e (PublicKey_of sk) {| PrivateVal := m |}
      = (Ok c, with_reader e rd) /\
      Decrypt p sk c <> {| PrivateVal := m |}).
Proof.
  intros HP HQ HPQ Hgen Hr.
  pose proof (n_large p HP HQ HPQ) as Hn.
  destruct (key_fields p sk Hgen) as (Hpk & _).
  assert (Hn' : 1 < P_n (PublicKey_of sk)) by (rewrite Hpk; exact Hn).
  assert (Hpow : pow 0 (P_n (PublicKey_of sk)) (P_nn (PublicKey_of sk)) = 0).
  { unfold pow. rewrite Z.pow_0_l by lia. apply Zmod_0_l. }
  assert (HE : forall m, Encrypt e (PublicKey_of sk) m
                         = (Ok {| PublicVal := 0 |}, with_reader e rd)).
  { intros m. rewrite (Encrypt_draw e _ m 0 rd Hr), Hpow.
    unfold bigMul. rewrite Z.mul_0_r, Zmod_0_l. reflexivity. }
  split; [intros e' key m r rd'; apply Encrypt_draw|].
  split; [unfold Z.coprime; rewrite Z.gcd_0_l; lia|].
  split; [exact Hpow|].
  split; [exact HE|].
  split.
  - intros m Hm. eexists. split; [apply HE|]. congruence.
  - destruct (Z.eq_dec (PrivateVal (Decrypt p sk {| PublicVal := 0 |})) 0)
      as [E | E].
    + exists 1, {| PublicVal := 0 |}.
      split; [lia|]. split; [apply HE|].
      intros D. rewrite D in E. discriminate.
    + exists 0, {| PublicVal := 0 |}.
      split; [lia|]. split; [apply HE|].
      intros D. rewrite D in E. apply E. reflexivity.
Qed.

Lemma Encrypt_unchecked_blinding_witness :
  (forall m,
      Encrypt (vector_instance [0]) (PublicKey_of vector_key) m
      = (Ok {| PublicVal := 0 |}, with_reader (vector_instance [0]) [])) /\
  (exists m c,
      0 <= m < P_n (PublicKey_of vector_key) /\
      Encrypt (vector_instance [0]) (PublicKey_of vector_key)
        {| PrivateVal := m |}
      = (Ok c, with_reader (vector_instance [0]) []) /\
      Decrypt (vector_instance [0]) vector_key c <> {| PrivateVal := m |}).
Proof.
  destruct (Encrypt_unchecked_blinding (vector_instance [0])
              (vector_instance [0]) vector_key [])
    as (_ & _ & _ & HE & _ & Hex).
  - exact Z.prime_3.
  - exact prime_5.
  - simpl; lia.
  - reflexivity.
  - reflexivity.
  - split; [exact HE | exact Hex].
Defined.

(** * Further properties of the code *)

(** ** More number theory *)

(** Every unit modulo [p q] has order dividing any common multiple of
    [p - 1] and [q - 1]. *)
Lemma unit_pow_mod (p q r t : Z) :
  Z.prime p -> Z.prime q -> p <> q -> Z.coprime r (p * q) ->
  0 <= t -> (p - 1 | t) -> (q - 1 | t) ->
  r ^ t mod (p * q) = 1.
Proof.
  intros Hp Hq Hpq Hr Ht [a Ha] [b Hb].
  pose proof (Z.prime_ge_2 _ Hp) as Hp2.
  pose proof (Z.prime_ge_2 _ Hq) as Hq2.
  destruct (coprime_mul_inv _ _ _ Hr) as [Hrp Hrq].
  assert (Ha0 : 0 <= a) by nia.
  assert (Hb0 : 0 <= b) by nia.
  assert (Fp : forall x, Z.prime x -> Z.coprime r x -> r ^ (x - 1) mod x = 1).
  { intros x Hx Hrx. apply Z.fermat_nz; [exact Hx|].
    intros H0. apply Z.mod_divide in H0; [|pose proof (Z.prime_ge_2 _ Hx); lia].
    revert H0. apply Z.coprime_prime_l_iff; [exact Hx|].
    symmetry. exact Hrx. }
  assert (H1 : r ^ t mod p = 1).
  { rewrite Ha, Z.mul_comm, Z.pow_mul_r by lia.
    apply pow_mod_one; [lia | lia | apply Fp; assumption]. }
  assert (H2 : r ^ t mod q = 1).
  { rewrite Hb, Z.mul_comm, Z.pow_mul_r by lia.
    apply pow_mod_one; [lia | lia | apply Fp; assumption]. }
  apply Znumtheory.Zdivide_mod_minus; [nia|].
  apply coprime_divide_mul.
  - apply Z.coprime_prime_l; [exact Hp|].
    intros Hd. apply Hpq. apply Z.divide_prime_prime; assumption.
  - apply Znumtheory.Zmod_divide_minus; [lia | exact H1].
  - apply Znumtheory.Zmod_divide_minus; [lia | exact H2].
Qed.

(** The value [GenKeypair] inverts is the private exponent modulo [n]. *)
Lemma keygen_residue (x y : Z) :
  1 < x -> 1 < y ->
  l (pow (x * y + 1) (lcm (x - 1) (y - 1)) (x * y * (x * y))) (x * y)
  = lcm (x - 1) (y - 1) mod (x * y).
Proof.
  intros Hx Hy.
  destruct (lcm_facts (x - 1) (y - 1)) as (Hl & _); [lia | lia |].
  unfold pow.
  replace (x * y + 1) with (1 + 1 * (x * y)) by ring.
  rewrite one_plus_pow by lia.
  replace (lcm (x - 1) (y - 1) * 1 * (x * y))
    with (lcm (x - 1) (y - 1) * (x * y)) by ring.
  apply l_residue. nia.
Qed.

(** A prime divides [lcm (x - 1) (y - 1)] exactly when it divides one of
    [x - 1], [y - 1]. *)
Lemma prime_divide_lcm (d x y : Z) :
  Z.prime d -> 1 < x -> 1 < y ->
  (d | lcm (x - 1) (y - 1)) <-> (d | x - 1) \/ (d | y - 1).
Proof.
  intros Hd Hx Hy.
  destruct (lcm_facts (x - 1) (y - 1)) as (_ & Hl1 & Hl2); [lia | lia |].
  split.
  - intros H. apply Z.divide_prime_mul; [exact Hd|].
    apply Z.divide_trans with (1 := H). apply lcm_divide_mul; lia.
  - intros [H | H]; eapply Z.divide_trans; eassumption.
Qed.

Lemma prime_not_divide_pred (x : Z) : Z.prime x -> ~ (x | x - 1).
Proof.
  intros Hx Hd. pose proof (Z.prime_ge_2 _ Hx).
  apply Z.divide_pos_le in Hd; lia.
Qed.

(** When the private exponent is a unit modulo [n]. *)
Lemma lcm_coprime_iff (x y : Z) :
  Z.prime x -> Z.prime y ->
  Z.coprime (lcm (x - 1) (y - 1) mod (x * y)) (x * y) <->
  ~ (x | y - 1) /\ ~ (y | x - 1).
Proof.
  intros Hx Hy.
  pose proof (Z.prime_ge_2 _ Hx) as Hx2.
  pose proof (Z.prime_ge_2 _ Hy) as Hy2.
  rewrite Z.coprime_mod_l_iff.
  split.
  - intros Hc. apply coprime_mul_inv in Hc. destruct Hc as [Hcx Hcy].
    split; intros Hd.
    + assert (Hdl : (x | lcm (x - 1) (y - 1)))
        by (apply prime_divide_lcm; try lia; auto).
      revert Hdl. apply Z.coprime_prime_l_iff; [exact Hx|].
      symmetry. exact Hcx.
    + assert (Hdl : (y | lcm (x - 1) (y - 1)))
        by (apply prime_divide_lcm; try lia; auto).
      revert Hdl. apply Z.coprime_prime_l_iff; [exact Hy|].
      symmetry. exact Hcy.
  - intros [H1 H2].
    apply Z.coprime_mul_r; symmetry; apply Z.coprime_prime_l; try assumption;
      intros Hd; apply prime_divide_lcm in Hd; try lia; try assumption;
      destruct Hd as [Hd | Hd]; auto;
      revert Hd; apply prime_not_divide_pred; assumption.
Qed.

Lemma GenKeypair_unfold {reader : Type} (p : paillier reader) :
  GenKeypair p =
  match rev (l (pow (P p * Q p + 1) (lcm (P p - 1) (Q p - 1))
                  (P p * Q p * (P p * Q p))) (P p * Q p)) (P p * Q p) with
  | Err err => Err err
  | Ok u =>
      Ok {| PublicKey_of := {| P_n := P p * Q p;
                               P_nn := P p * Q p * (P p * Q p);
                               P_g := P p * Q p + 1 |};
            P_h := lcm (P p - 1) (Q p - 1);
            P_u := u |}
  end.
Proof. reflexivity. Qed.

(** X4. When key generation returns: on an instance holding two primes
    (equal or not), [GenKeypair] returns a key pair exactly when neither
    prime divides the other minus one; otherwise it stops with
    [InverseError]. *)
Theorem GenKeypair_returns_iff {reader : Type} (p : paillier reader) :
  Z.prime (P p) -> Z.prime (Q p) ->
  ((exists sk, GenKeypair p = Ok sk) <->
   ~ (P p | Q p - 1) /\ ~ (Q p | P p - 1)) /\
  ((P p | Q p - 1) \/ (Q p | P p - 1) -> GenKeypair p = Err InverseError).
Proof.
  intros HP HQ.
  pose proof (Z.prime_ge_2 _ HP) as HP2.
  pose proof (Z.prime_ge_2 _ HQ) as HQ2.
  pose proof (lcm_coprime_iff (P p) (Q p) HP HQ) as Hiff.
  rewrite GenKeypair_unfold, keygen_residue by lia.
  destruct (rev _ _) as [u | e] eqn:E.
  - apply rev_Ok in E. destruct E as (Hc & _).
    apply Hiff in Hc. split.
    + split; [intros _; exact Hc | eauto].
    + tauto.
  - apply rev_Err in E. destruct E as (-> & Hg). split.
    + split; [intros [sk Hsk]; discriminate|].
      intros Hc. apply Hiff in Hc. contradiction.
    + reflexivity.
Qed.

Lemma prime_7 : Z.prime 7.
Proof.
  split; [lia|]. intros d Hd [z Hz].
  assert (d = 2 \/ d = 3 \/ d = 4 \/ d = 5 \/ d = 6)
    as [-> | [-> | [-> | [-> | ->]]]] by lia; lia.
Qed.

Lemma GenKeypair_returns_iff_witness :
  GenKeypair {| P := 3; Q := 7; randomReader := @nil Z |} = Err InverseError.
Proof.
  apply (proj2 (GenKeypair_returns_iff
                  {| P := 3; Q := 7; randomReader := @nil Z |}
                  Z.prime_3 prime_7)).
  left. exists 2. reflexivity.
Defined.

(** ** What every generated key satisfies *)

Lemma GenKeypair_key_facts {reader : Type} (p : paillier reader)
    (sk : PrivateKey) :
  Z.prime (P p) -> Z.prime (Q p) -> P p <> Q p ->
  GenKeypair p = Ok sk ->
  PublicKey_of sk =
  {| P_n := P p * Q p; P_nn := P p * Q p * (P p * Q p);
     P_g := P p * Q p + 1 |} /\
  1 < P p * Q p /\
  0 < P_h sk /\ (P p - 1 | P_h sk) /\ (Q p - 1 | P_h sk) /\
  0 <= P_u sk /\
  (P_h sk * P_u sk) mod (P p * Q p) = 1.
Proof.
  intros HP HQ HPQ Hgen.
  destruct (key_fields p sk Hgen) as (Hpk & Hh & Hu).
  pose proof (n_large p HP HQ HPQ) as Hn.
  destruct (h_facts p HP HQ) as (Hh0 & Hh1 & Hh2).
  pose proof (hu_one p sk HP HQ HPQ Hgen) as Hhu.
  rewrite Hh.
  repeat (split; [assumption|]).
  split; [|exact Hhu].
  apply rev_Ok in Hu. destruct Hu as (_ & _ & Hu). rewrite <- Hu.
  apply Z.mod_pos_bound. lia.
Qed.

(** X7. Every key pair that [GenKeypair] returns on two distinct primes is
    well formed: [n = P Q > 1], [n^2] and [g = n + 1] are as named, [g] is a
    unit modulo [n^2], [h] is a positive common multiple of [P - 1] and
    [Q - 1] dividing their product, [0 <= u < n] inverts [h] modulo [n], and
    every unit [r] modulo [n] has [r^h = 1] modulo [n] and [r^(n h) = 1]
    modulo [n^2]. *)
Theorem GenKeypair_key_invariants {reader : Type} (p : paillier reader)
    (sk : PrivateKey) :
  Z.prime (P p) -> Z.prime (Q p) -> P p <> Q p ->
  GenKeypair p = Ok sk ->
  PublicKey_of sk =
  {| P_n := P p * Q p; P_nn := P p * Q p * (P p * Q p);
     P_g := P p * Q p + 1 |} /\
  1 < P_n (PublicKey_of sk) /\
  0 < P_h sk /\
  (P p - 1 | P_h sk) /\ (Q p - 1 | P_h sk) /\
  (P_h sk | (P p - 1) * (Q p - 1)) /\
  0 <= P_u sk < P_n (PublicKey_of sk) /\
  (P_h sk * P_u sk) mod P_n (PublicKey_of sk) = 1 /\
  Z.coprime (P_g (PublicKey_of sk)) (P_nn (PublicKey_of sk)) /\
  (forall r, Z.coprime r (P_n (PublicKey_of sk)) ->
             r ^ P_h sk mod P_n (PublicKey_of sk) = 1 /\
             r ^ (P_n (PublicKey_of sk) * P_h sk)
             mod P_nn (PublicKey_of sk) = 1).
Proof.
  intros HP HQ HPQ Hgen.
  pose proof (Z.prime_ge_2 _ HP) as HP2.
  pose proof (Z.prime_ge_2 _ HQ) as HQ2.
  destruct (key_fields p sk Hgen) as (Hpk & Hh & Hu).
  pose proof (n_large p HP HQ HPQ) as Hn.
  destruct (h_facts p HP HQ) as (Hh0 & Hh1 & Hh2).
  pose proof (hu_one p sk HP HQ HPQ Hgen) as Hhu.
  rewrite Hpk, Hh. cbn [P_n P_nn P_g].
  split; [reflexivity|]. split; [exact Hn|]. split; [exact Hh0|].
  split; [exact Hh1|]. split; [exact Hh2|].
  split; [apply lcm_divide_mul; unfold dec; lia|].
  split.
  { apply rev_Ok in Hu. destruct Hu as (_ & _ & Hu). rewrite <- Hu.
    apply Z.mod_pos_bound. lia. }
  split; [exact Hhu|].
  split.
  { apply Z.coprime_mul_r; apply Z.bezout_1_gcd; exists 1, (-1); ring. }
  intros r Hr. split.
  - apply unit_pow_mod; auto; lia.
  - apply (unit_pow_h p HP HQ HPQ r Hr).
Qed.

Lemma GenKeypair_key_invariants_witness :
  0 <= P_u vector_key < P_n (PublicKey_of vector_key) /\
  (P_h vector_key * P_u vector_key) mod P_n (PublicKey_of vector_key) = 1.
Proof.
  destruct (GenKeypair_key_invariants (vector_instance []) vector_key)
    as (_ & _ & _ & _ & _ & _ & Hu & Hhu & _).
  - exact Z.prime_3.
  - exact prime_5.
  - simpl; lia.
  - reflexivity.
  - split; [exact Hu | exact Hhu].
Defined.

(** ** Plaintexts outside [[0, n)] *)

Lemma pow_g_mod (n m : Z) :
  1 < n -> 0 <= m ->
  pow (n + 1) m (n * n) = pow (n + 1) (m mod n) (n * n).
Proof.
  intros Hn Hm. unfold pow.
  pose proof (Z.mod_pos_bound m n ltac:(lia)) as Hb.
  replace (n + 1) with (1 + 1 * n) by ring.
  rewrite !one_plus_pow by lia.
  pose proof (Z.div_mod m n ltac:(lia)) as Hd.
  replace (1 + m * 1 * n)
    with (1 + m mod n * 1 * n + (m / n) * (n * n)) by nia.
  apply Z_mod_plus_full.
Qed.

(** X2. Plaintexts are not range-checked: for a generated key pair and a
    draw coprime to [n], [Encrypt] accepts any [m >= 0], returns the very
    ciphertext it returns for [m mod n], and that ciphertext decrypts to
    [m mod n]. *)
Theorem Encrypt_plaintext_reduced {reader : Type} `{EntropySource reader}
    (p e : paillier reader) (sk : PrivateKey) (m r : Z) (rd : reader) :
  Z.prime (P p) -> Z.prime (Q p) -> P p <> Q p ->
  GenKeypair p = Ok sk ->
  0 <= m ->
  rand_Int (randomReader e) (P_n (PublicKey_of sk)) = (Ok r, rd) ->
  Z.coprime r (P_n (PublicKey_of sk)) ->
  exists c,
    Encrypt e (PublicKey_of sk) {| PrivateVal := m |}
    = (Ok c, with_reader e rd) /\
    Encrypt e (PublicKey_of sk)
      {| PrivateVal := m mod P_n (PublicKey_of sk) |}
    = (Ok c, with_reader e rd) /\
    Decrypt p sk c = {| PrivateVal := m mod P_n (PublicKey_of sk) |}.
Proof.
  intros HP HQ HPQ Hgen Hm Hr Hc.
  destruct (Encrypt_encodes p e sk m r rd) as (c & HE & Henc & _);
    try assumption.
  exists c. split; [exact HE|].
  destruct (key_fields p sk Hgen) as (Hpk & _).
  pose proof (n_large p HP HQ HPQ) as Hn.
  split.
  - rewrite <- HE. rewrite !(Encrypt_draw e _ _ r rd Hr).
    rewrite Hpk. cbn [P_n P_nn P_g PrivateVal].
    rewrite <- pow_g_mod by lia. reflexivity.
  - rewrite (Decrypt_encodes p sk HP HQ HPQ Hgen c m Henc).
    rewrite Hpk. reflexivity.
Qed.

Lemma Encrypt_plaintext_reduced_witness :
  exists c,
    Encrypt (vector_instance [7; 4]) (PublicKey_of vector_key)
      {| PrivateVal := 17 |}
    = (Ok c, with_reader (vector_instance [7; 4]) [4]) /\
    Encrypt (vector_instance [7; 4]) (PublicKey_of vector_key)
      {| PrivateVal := 17 mod P_n (PublicKey_of vector_key) |}
    = (Ok c, with_reader (vector_instance [7; 4]) [4]) /\
    Decrypt (vector_instance [7; 4]) vector_key c
    = {| PrivateVal := 17 mod P_n (PublicKey_of vector_key) |}.
Proof.
  apply (Encrypt_plaintext_reduced (vector_instance [7; 4])
           (vector_instance [7; 4]) vector_key 17 7 [4]).
  - exact Z.prime_3.
  - exact prime_5.
  - simpl; lia.
  - reflexivity.
  - lia.
  - reflexivity.
  - reflexivity.
Defined.

(** ** Distinct draws give distinct ciphertexts *)

(** Modulo [n] a ciphertext is the [n]-th power of its blinding factor. *)
Lemma ciphertext_mod_n (n m r : Z) :
  1 < n -> 0 <= m ->
  bigMul (pow (n + 1) m (n * n)) (pow r n (n * n)) (n * n) mod n
  = r ^ n mod n.
Proof.
  intros Hn Hm. unfold bigMul, pow.
  assert (Hd : (n | n * n)) by (exists n; ring).
  rewrite Z.mod_mod_divide by exact Hd.
  rewrite Z.mul_mod, !Z.mod_mod_divide by (exact Hd || lia).
  rewrite <- (Z.mod_pow_l (n + 1)).
  replace ((n + 1) mod n) with 1.
  - rewrite Z.pow_1_l, Z.mod_1_l, Z.mul_1_l, Z.mod_mod by lia. reflexivity.
  - symmetry. replace (n + 1) with (1 + 1 * n) by ring.
    rewrite Z_mod_plus_full. apply Z.mod_1_l, Hn.
Qed.

(** A unit modulo [n] is determined by its [n]-th power modulo [n], because
    [n] is invertible modulo the exponent of the group. *)
Lemma nth_power_injective (p q h u r1 r2 : Z) :
  Z.prime p -> Z.prime q -> p <> q ->
  0 < h -> (p - 1 | h) -> (q - 1 | h) ->
  0 <= u -> (h * u) mod (p * q) = 1 ->
  Z.coprime r1 (p * q) -> Z.coprime r2 (p * q) ->
  r1 ^ (p * q) mod (p * q) = r2 ^ (p * q) mod (p * q) ->
  r1 mod (p * q) = r2 mod (p * q).
Proof.
  intros Hp Hq Hpq Hh Hh1 Hh2 Hu Hhu Hr1 Hr2 Heq.
  pose proof (Z.prime_ge_2 _ Hp) as Hp2.
  pose proof (Z.prime_ge_2 _ Hq) as Hq2.
  set (n := p * q) in *.
  assert (Hn : 1 < n) by (unfold n; nia).
  pose proof (Z.div_mod (h * u) n ltac:(lia)) as Hd.
  rewrite Hhu in Hd.
  set (k := h * u / n) in *.
  assert (Hk : 0 <= k) by nia.
  assert (Hone : forall r, Z.coprime r n ->
                           (r * (r ^ n) ^ k) mod n = 1).
  { intros r Hr.
    rewrite <- Z.pow_mul_r by lia.
    rewrite <- (Z.pow_1_r r) at 1.
    rewrite <- Z.pow_add_r by nia.
    replace (1 + n * k) with (h * u) by lia.
    apply unit_pow_mod; auto; try nia.
    - apply Z.divide_trans with (1 := Hh1). exists u. ring.
    - apply Z.divide_trans with (1 := Hh2). exists u. ring. }
  assert (Hs : (r1 ^ n) ^ k mod n = (r2 ^ n) ^ k mod n).
  { rewrite <- (Z.mod_pow_l (r1 ^ n)), Heq, Z.mod_pow_l. reflexivity. }
  assert (H12 : (r1 * (r2 ^ n) ^ k) mod n = 1).
  { rewrite <- Z.mul_mod_idemp_r, <- Hs, Z.mul_mod_idemp_r by lia.
    apply Hone, Hr1. }
  transitivity ((r1 * (r2 * (r2 ^ n) ^ k)) mod n).
  - rewrite <- Z.mul_mod_idemp_r, (Hone r2 Hr2), Z.mul_1_r by lia.
    reflexivity.
  - replace (r1 * (r2 * (r2 ^ n) ^ k)) with (r2 * (r1 * (r2 ^ n) ^ k))
      by ring.
    rewrite <- Z.mul_mod_idemp_r, H12, Z.mul_1_r by lia. reflexivity.
Qed.

(** X3. Ciphertexts determine plaintext and blinding factor: under a
    generated key pair, two encryptions of plaintexts in [[0, n)] with draws
    coprime to [n] return the same ciphertext only if the plaintexts and the
    draws are the same.  So encryptions of one plaintext with different
    valid draws always differ. *)
Theorem Encrypt_injective {reader : Type} `{EntropySource reader}
    (p e1 e2 : paillier reader) (sk : PrivateKey) (m1 m2 r1 r2 : Z)
    (rd1 rd2 : reader) :
  Z.prime (P p) -> Z.prime (Q p) -> P p <> Q p ->
  GenKeypair p = Ok sk ->
  0 <= m1 < P_n (PublicKey_of sk) ->
  0 <= m2 < P_n (PublicKey_of sk) ->
  rand_Int (randomReader e1) (P_n (PublicKey_of sk)) = (Ok r1, rd1) ->
  Z.coprime r1 (P_n (PublicKey_of sk)) ->
  rand_Int (randomReader e2) (P_n (PublicKey_of sk)) = (Ok r2, rd2) ->
  Z.coprime r2 (P_n (PublicKey_of sk)) ->
  fst (Encrypt e1 (PublicKey_of sk) {| PrivateVal := m1 |})
  = fst (Encrypt e2 (PublicKey_of sk) {| PrivateVal := m2 |}) ->
  m1 = m2 /\ r1 = r2.
Proof.
  intros HP HQ HPQ Hgen Hm1 Hm2 Hr1 Hc1 Hr2 Hc2 Heq.
  pose proof (rand_Int_range _ _ _ _ Hr1) as Hb1.
  pose proof (rand_Int_range _ _ _ _ Hr2) as Hb2.
  destruct (Encrypt_encodes p e1 sk m1 r1 rd1) as (c1 & HE1 & Henc1 & _);
    try assumption; [lia|].
  destruct (Encrypt_encodes p e2 sk m2 r2 rd2) as (c2 & HE2 & Henc2 & _);
    try assumption; [lia|].
  rewrite HE1, HE2 in Heq. cbn [fst] in Heq. injection Heq as Heq.
  pose proof (Decrypt_encodes p sk HP HQ HPQ Hgen c1 m1 Henc1) as D1.
  pose proof (Decrypt_encodes p sk HP HQ HPQ Hgen c2 m2 Henc2) as D2.
  destruct (GenKeypair_key_facts p sk HP HQ HPQ Hgen)
    as (Hpk & Hn & Hh0 & Hh1 & Hh2 & Hu0 & Hhu).
  pose proof (Encrypt_draw e1 _ {| PrivateVal := m1 |} r1 rd1 Hr1) as F1.
  pose proof (Encrypt_draw e2 _ {| PrivateVal := m2 |} r2 rd2 Hr2) as F2.
  rewrite HE1 in F1. rewrite HE2 in F2.
  injection F1 as F1. injection F2 as F2.
  apply (f_equal PublicVal) in F1, F2.
  rewrite Hpk in Hm1, Hm2, Hb1, Hb2, Hc1, Hc2, F1, F2.
  cbn [P_n P_nn P_g PrivateVal PublicVal] in *.
  split.
  - rewrite Heq, D2 in D1. injection D1 as D1.
    rewrite !Z.mod_small in D1 by lia. congruence.
  - assert (Hpw : r1 ^ (P p * Q p) mod (P p * Q p)
                  = r2 ^ (P p * Q p) mod (P p * Q p)).
    { rewrite <- (ciphertext_mod_n _ m1 r1), <- (ciphertext_mod_n _ m2 r2)
        by lia.
      rewrite <- F1, <- F2, Heq. reflexivity. }
    pose proof (nth_power_injective (P p) (Q p) (P_h sk) (P_u sk) r1 r2
                  HP HQ HPQ Hh0 Hh1 Hh2 Hu0 Hhu Hc1 Hc2 Hpw) as Hr.
    rewrite !Z.mod_small in Hr by lia. exact Hr.
Qed.

Lemma Encrypt_injective_witness : 2 = 2 /\ 7 = 7.
Proof.
  apply (Encrypt_injective (vector_instance []) (vector_instance [7])
           (vector_instance [7; 4]) vector_key 2 2 7 7 [] [4]).
  - exact Z.prime_3.
  - exact prime_5.
  - simpl; lia.
  - reflexivity.
  - simpl; lia.
  - simpl; lia.
  - reflexivity.
  - reflexivity.
  - reflexivity.
  - reflexivity.
  - reflexivity.
Defined.

(** ** Ciphertexts built by the homomorphic operations *)

Lemma coprime_of_inverse (b v modulus : Z) :
  1 < modulus -> (b * v) mod modulus = 1 mod modulus -> Z.coprime v modulus.
Proof.
  intros Hm Hv. rewrite Z.mod_1_l in Hv by exact Hm.
  pose proof (Z.div_mod (b * v) modulus ltac:(lia)) as Hd.
  rewrite Hv in Hd.
  apply Z.bezout_1_gcd. exists b, (- (b * v / modulus)). lia.
Qed.

Lemma carries_invariant {reader : Type} `{EntropySource reader}
    (p : paillier reader) (sk : PrivateKey) (c : PublicValue) (m : Z) :
  Z.prime (P p) -> Z.prime (Q p) -> P p <> Q p ->
  GenKeypair p = Ok sk ->
  carries p sk c m ->
  encodes sk (PublicVal c) m /\
  Z.coprime (PublicVal c) (P_nn (PublicKey_of sk)) /\
  0 <= PublicVal c < P_nn (PublicKey_of sk).
Proof.
  intros HP HQ HPQ Hgen Hc.
  destruct (GenKeypair_key_facts p sk HP HQ HPQ Hgen) as (Hpk & Hn & _).
  assert (Hnn : 1 < P_nn (PublicKey_of sk)) by (rewrite Hpk; cbn; nia).
  induction Hc as [e m r rd c Hm Hr Hcr HE
                  | a b ma mb Ha IHa Hb IHb
                  | a ma k Ha IHa Hk
                  | a b c ma mb Ha IHa Hb IHb HS].
  - destruct (Encrypt_encodes p e sk m r rd) as (c' & HE' & Henc & Hu);
      try assumption.
    rewrite HE in HE'. injection HE' as <-.
    split; [exact Henc|]. split; [exact Hu|].
    rewrite (Encrypt_draw e _ _ r rd Hr) in HE. injection HE as <-.
    cbn [PublicVal]. apply Z.mod_pos_bound. lia.
  - destruct IHa as (Ea & Ua & _), IHb as (Eb & Ub & _).
    unfold Add. cbn [PublicVal]. split; [|split].
    + rewrite Hpk. cbn [P_nn]. apply (encodes_mul p sk); assumption.
    + unfold bigMul. apply Z.coprime_mod_l_iff, Z.coprime_mul_l; assumption.
    + apply Z.mod_pos_bound. lia.
  - destruct IHa as (Ea & Ua & _).
    unfold Mul. cbn [PublicVal]. split; [|split].
    + rewrite Hpk. cbn [P_nn]. apply (encodes_pow p sk); assumption.
    + unfold pow. apply Z.coprime_mod_l_iff, Z.coprime_pow_l; assumption.
    + apply Z.mod_pos_bound. lia.
  - destruct IHa as (Ea & Ua & _), IHb as (Eb & Ub & _).
    unfold Sub in HS.
    destruct (rev (PublicVal b) (P_nn (PublicKey_of sk))) as [v | err] eqn:E;
      [|discriminate].
    injection HS as <-. cbn [PublicVal].
    apply rev_Ok in E. destruct E as (_ & Hv & _).
    split; [|split].
    + replace (ma - mb) with (ma + - mb) by ring.
      rewrite Hpk in Hv |- *. cbn [P_nn] in Hv |- *.
      apply (encodes_mul p sk); try assumption.
      apply (encodes_inverse p sk HP HQ HPQ Hgen (PublicVal b)); assumption.
    + unfold bigMul. apply Z.coprime_mod_l_iff, Z.coprime_mul_l;
        [exact Ua|].
      apply coprime_of_inverse with (PublicVal b); assumption.
    + apply Z.mod_pos_bound. lia.
Qed.

(** X1. The operations compose: any ciphertext built from valid
    encryptions by [Add], [Mul] with non-negative scalars and [Sub], in any
    nesting, decrypts to the same expression over the plaintexts modulo [n];
    it lies in [[0, n^2)] and is a unit modulo [n^2], so [Sub] never stops
    when it is the subtrahend. *)
Theorem Decrypt_composed {reader : Type} `{EntropySource reader}
    (p : paillier reader) (sk : PrivateKey) (c : PublicValue) (m : Z) :
  Z.prime (P p) -> Z.prime (Q p) -> P p <> Q p ->
  GenKeypair p = Ok sk ->
  carries p sk c m ->
  Decrypt p sk c = {| PrivateVal := m mod P_n (PublicKey_of sk) |} /\
  0 <= PublicVal c < P_nn (PublicKey_of sk) /\
  (forall a, exists d, Sub p a c (PublicKey_of sk) = Ok d).
Proof.
  intros HP HQ HPQ Hgen Hc.
  destruct (carries_invariant p sk c m HP HQ HPQ Hgen Hc) as (He & Hu & Hb).
  destruct (key_fields p sk Hgen) as (Hpk & _).
  split; [|split; [exact Hb|]].
  - rewrite (Decrypt_encodes p sk HP HQ HPQ Hgen c m He), Hpk. reflexivity.
  - intros a. unfold Sub.
    destruct (rev_coprime _ _ Hu) as (v & ->). eauto.
Qed.

(** (3 * Enc 2 - Enc 3) + Enc 2 decrypts to 3 * 2 - 3 + 2 = 5. *)
Lemma Decrypt_composed_witness :
  Decrypt (vector_instance []) vector_key
    (Add (vector_instance [])
       {| PublicVal := 28 |} {| PublicVal := 58 |} (PublicKey_of vector_key))
  = {| PrivateVal := (2 * 3 - 3 + 2) mod P_n (PublicKey_of vector_key) |}.
Proof.
  assert (C2 : carries (vector_instance []) vector_key
                 {| PublicVal := 58 |} 2).
  { apply (carries_Encrypt _ _ (vector_instance [7]) 2 7 []);
      [lia | reflexivity | reflexivity | reflexivity]. }
  assert (C3 : carries (vector_instance []) vector_key
                 {| PublicVal := 154 |} 3).
  { apply (carries_Encrypt _ _ (vector_instance [4]) 3 4 []);
      [lia | reflexivity | reflexivity | reflexivity]. }
  apply (Decrypt_composed (vector_instance []) vector_key).
  - exact Z.prime_3.
  - exact prime_5.
  - simpl; lia.
  - reflexivity.
  - apply carries_Add; [|exact C2].
    apply (carries_Sub _ _ (Mul (vector_instance []) {| PublicVal := 58 |} 3
                              (PublicKey_of vector_key))
             {| PublicVal := 154 |} {| PublicVal := 28 |} (2 * 3) 3);
      [apply carries_Mul; [exact C2 | lia] | exact C3 | reflexivity].
Defined.

(** ** Constructor, then key generation *)

(** X5. Constructor, then key generation: on an instance that [GetInstance]
    returned, [GenKeypair] returns a key pair whenever the two draws are odd
    primes, because both have the configured bit length. *)
Theorem GetInstance_GenKeypair {reader : Type} `{EntropySource reader}
    (random : reader) (keySize : Z) (p : paillier reader) :
  GetInstance random keySize = Ok p ->
  Z.prime (P p) -> Z.prime (Q p) ->
  Z.odd (P p) = true -> Z.odd (Q p) = true ->
  exists sk, GenKeypair p = Ok sk.
Proof.
  intros Hp HP HQ OP OQ.
  apply GetInstance_bits in Hp. destruct Hp as (_ & BP & BQ & _).
  pose proof (Z.prime_ge_2 _ HP) as HP2.
  pose proof (Z.prime_ge_2 _ HQ) as HQ2.
  rewrite GenKeypair_unfold, keygen_residue by lia.
  destruct (rev _ _) as [u | e] eqn:E; [eauto|].
  apply rev_Err in E. destruct E as (_ & E). exfalso. apply E.
  apply lcm_coprime_iff; try assumption.
  split; intros Hd.
  - apply (prime_not_divide_lcm (P p) (Q p) keySize); try assumption.
    apply prime_divide_lcm; [assumption | lia | lia | auto].
  - apply (prime_not_divide_lcm (Q p) (P p) keySize); try assumption.
    apply prime_divide_lcm; [assumption | lia | lia | auto].
Qed.

Lemma GetInstance_GenKeypair_witness :
  exists sk, GenKeypair {| P := 5; Q := 7; randomReader := [4] |} = Ok sk.
Proof.
  apply (GetInstance_GenKeypair [5; 7; 4] 3
           {| P := 5; Q := 7; randomReader := [4] |}).
  - reflexivity.
  - exact prime_5.
  - exact prime_7.
  - reflexivity.
  - reflexivity.
Defined.

(** ** Equal primes *)

(** The expansion of [(1 + x)^m] up to the square term. *)
Lemma one_plus_pow_square (x m : Z) :
  0 <= m ->
  exists w, (1 + x) ^ m = 1 + m * x + (m * (m - 1) / 2) * (x * x)
                          + w * (x * x * x).
Proof.
  intros Hm. pattern m. apply natlike_ind; [| | exact Hm]; clear m Hm.
  - exists 0. reflexivity.
  - intros m Hm [w IH].
    assert (HT : Z.succ m * (Z.succ m - 1) / 2 = m * (m - 1) / 2 + m).
    { replace (Z.succ m * (Z.succ m - 1)) with (m * (m - 1) + m * 2) by ring.
      apply Z.div_add. lia. }
    exists (m * (m - 1) / 2 + w + w * x).
    rewrite Z.pow_succ_r, IH, HT by exact Hm. ring.
Qed.

Lemma one_plus_pow_self (x : Z) :
  0 < x -> Z.odd x = true ->
  exists w, (1 + x) ^ x = 1 + (1 + w * x) * (x * x).
Proof.
  intros Hx Ox. apply Z.odd_spec in Ox. destruct Ox as [j Hj].
  destruct (one_plus_pow_square x x ltac:(lia)) as [w Hw].
  assert (HT : x * (x - 1) / 2 = x * j).
  { replace (x * (x - 1)) with (x * j * 2) by lia. apply Z.div_mul. lia. }
  exists (j + w). rewrite Hw, HT. ring.
Qed.

(** With [n = x^2] the unit [1 + x] does not vanish under the exponent
    [n (x - 1)]. *)
Lemma one_plus_pow_order (x : Z) :
  1 < x -> Z.odd x = true ->
  (1 + x) ^ (x * x * (x - 1)) mod (x * x * (x * x))
  = (1 + x * (x - 1) * (x * x)) mod (x * x * (x * x)).
Proof.
  intros Hx Ox.
  destruct (one_plus_pow_self x ltac:(lia) Ox) as [w Hw].
  replace (x * x * (x - 1)) with (x * (x * (x - 1))) by ring.
  rewrite Z.pow_mul_r, Hw by nia.
  rewrite one_plus_pow by nia.
  replace (1 + x * (x - 1) * (1 + w * x) * (x * x))
    with (1 + x * (x - 1) * (x * x) + (w * (x - 1)) * (x * x * (x * x)))
    by ring.
  apply Z_mod_plus_full.
Qed.

Lemma lcm_diag (a : Z) : 0 < a -> lcm a a = a.
Proof.
  intros Ha. unfold lcm. rewrite Z.gcd_diag, Z.abs_eq by lia.
  apply Z.div_mul. lia.
Qed.

(** X6. The two primes are never compared: when both are the same odd prime
    [P], [GenKeypair] still returns a key pair, with [n = P^2]; under it the
    draw [1 + P], a unit modulo [n], makes every plaintext [m] in [[0, n)]
    decrypt to [(m + P) mod n], not to [m]. *)
Theorem equal_primes_break_round_trip {reader : Type} `{EntropySource reader}
    (p e : paillier reader) (m : Z) (rd : reader) :
  Z.prime (P p) -> Z.odd (P p) = true -> Q p = P p ->
  0 <= m < P p * P p ->
  rand_Int (randomReader e) (P p * P p) = (Ok (1 + P p), rd) ->
  exists sk c,
    GenKeypair p = Ok sk /\
    P_n (PublicKey_of sk) = P p * P p /\
    Z.coprime (1 + P p) (P_n (PublicKey_of sk)) /\
    Encrypt e (PublicKey_of sk) {| PrivateVal := m |}
    = (Ok c, with_reader e rd) /\
    Decrypt p sk c = {| PrivateVal := (m + P p) mod (P p * P p) |} /\
    Decrypt p sk c <> {| PrivateVal := m |}.
Proof.
  intros HP OP HQ Hm Hr.
  pose proof (Z.prime_ge_2 _ HP) as HP2.
  set (x := P p) in *.
  assert (Hn : 1 < x * x) by nia.
  assert (Hnn : x * x * (x * x) <> 0) by nia.
  pose proof (GenKeypair_unfold p) as G.
  rewrite HQ in G. fold x in G.
  rewrite keygen_residue, lcm_diag in G by lia.
  destruct (rev ((x - 1) mod (x * x)) (x * x)) as [u | err] eqn:E.
  2:{ exfalso. apply rev_Err in E. destruct E as (_ & E). apply E.
      apply Z.coprime_mod_l_iff.
      apply Z.coprime_mul_r; apply Z.bezout_1_gcd; exists (-1), 1; ring. }
  apply rev_Ok in E. destruct E as (_ & Hu & _).
  rewrite Z.mul_mod_idemp_l, Z.mod_1_l in Hu by lia.
  eexists. eexists.
  split; [exact G|]. cbn [PublicKey_of P_n P_nn P_g].
  split; [reflexivity|].
  split.
  { apply Z.coprime_mul_r; apply Z.bezout_1_gcd; exists 1, (-1); ring. }
  split; [apply (Encrypt_draw e _ _ (1 + x) rd); exact Hr|].
  cbn [P_n P_nn P_g PrivateVal].
  assert (D : Decrypt p
                {| PublicKey_of := {| P_n := x * x; P_nn := x * x * (x * x);
                                      P_g := x * x + 1 |};
                   P_h := x - 1; P_u := u |}
                {| PublicVal := bigMul (pow (x * x + 1) m (x * x * (x * x)))
                                  (pow (1 + x) (x * x) (x * x * (x * x)))
                                  (x * x * (x * x)) |}
              = {| PrivateVal := (m + x) mod (x * x) |}).
  { unfold Decrypt. cbn [PublicKey_of P_n P_nn P_h P_u PublicVal].
    assert (Hch : pow (bigMul (pow (x * x + 1) m (x * x * (x * x)))
                         (pow (1 + x) (x * x) (x * x * (x * x)))
                         (x * x * (x * x))) (x - 1) (x * x * (x * x))
                  = (1 + ((m + x) * (x - 1)) * (x * x))
                    mod (x * x * (x * x))).
    { unfold bigMul, pow.
      rewrite Z.mod_pow_l, Z.pow_mul_l, Z.mul_mod, !Z.mod_pow_l by exact Hnn.
      rewrite <- !Z.pow_mul_r by lia.
      rewrite one_plus_pow_order by (lia || assumption).
      replace (x * x + 1) with (1 + 1 * (x * x)) by ring.
      rewrite one_plus_pow by nia.
      rewrite <- Z.mul_mod by exact Hnn.
      replace ((1 + m * (x - 1) * 1 * (x * x)) * (1 + x * (x - 1) * (x * x)))
        with (1 + (m + x) * (x - 1) * (x * x)
              + (m * (x - 1) * x * (x - 1)) * (x * x * (x * x))) by ring.
      apply Z_mod_plus_full. }
    rewrite Hch, l_residue by exact Hn.
    unfold bigMul. f_equal.
    rewrite Z.mul_mod_idemp_l by lia.
    rewrite <- Z.mul_assoc, <- Z.mul_mod_idemp_r, Hu by lia.
    f_equal. ring. }
  split; [exact D|].
  rewrite D. intros [= Heq].
  destruct (Z_lt_dec (m + x) (x * x)) as [Hlt | Hge].
  - rewrite Z.mod_small in Heq by lia. lia.
  - assert (Hmod : (m + x) mod (x * x) = m + x - x * x).
    { symmetry. apply Z.mod_unique with 1; nia. }
    nia.
Qed.

Lemma equal_primes_break_round_trip_witness :
  exists p sk c,
    GetInstance [3; 3; 4] 2 = Ok p /\
    GenKeypair p = Ok sk /\
    Encrypt p (PublicKey_of sk) {| PrivateVal := 1 |}
    = (Ok c, with_reader p []) /\
    Decrypt p sk c <> {| PrivateVal := 1 |}.
Proof.
  exists {| P := 3; Q := 3; randomReader := [4] |}.
  destruct (equal_primes_break_round_trip
              {| P := 3; Q := 3; randomReader := [4] |}
              {| P := 3; Q := 3; randomReader := [4] |} 1 [])
    as (sk & c & Hg & _ & _ & HE & _ & HD).
  - exact Z.prime_3.
  - reflexivity.
  - reflexivity.
  - simpl; lia.
  - reflexivity.
  - exists sk, c. split; [reflexivity|]. auto.
Defined.

(** ** Laws of the operations on ciphertexts *)

(** X9. [Add] and [Sub] on ciphertexts: for a positive modulus [Add] is
    commutative and associative; when [b] is a unit modulo [n^2], [Sub]
    undoes [Add] ([Sub (Add a b) b] is [a mod n^2]) and [Add] undoes [Sub]. *)
Theorem Add_Sub_laws {reader : Type} (p : paillier reader)
    (a b c : PublicValue) (key : PublicKey) :
  0 < P_nn key ->
  Add p a b key = Add p b a key /\
  Add p (Add p a b key) c key = Add p a (Add p b c key) key /\
  (Z.coprime (PublicVal b) (P_nn key) ->
   Sub p (Add p a b key) b key
   = Ok {| PublicVal := PublicVal a mod P_nn key |} /\
   exists d, Sub p a b key = Ok d /\
             Add p d b key = {| PublicVal := PublicVal a mod P_nn key |}).
Proof.
  intros Hnn. assert (Hnz : P_nn key <> 0) by lia.
  split; [|split].
  - unfold Add, bigMul. rewrite Z.mul_comm. reflexivity.
  - unfold Add, bigMul. cbn [PublicVal]. f_equal.
    rewrite Z.mul_mod_idemp_l, Z.mul_mod_idemp_r, Z.mul_assoc by exact Hnz.
    reflexivity.
  - intros Hb. unfold Sub.
    destruct (rev (PublicVal b) (P_nn key)) as [v | e] eqn:E.
    2:{ apply rev_Err in E. destruct E as (_ & E). contradiction. }
    apply rev_Ok in E. destruct E as (_ & Hv & _).
    assert (Hcancel : forall x, (x * (PublicVal b * v)) mod P_nn key
                                = x mod P_nn key).
    { intros x. rewrite <- Z.mul_mod_idemp_r, Hv, Z.mul_mod_idemp_r
        by exact Hnz. f_equal. ring. }
    split.
    + unfold Add, bigMul. cbn [PublicVal]. do 2 f_equal.
      rewrite Z.mul_mod_idemp_l, <- Z.mul_assoc by exact Hnz.
      apply Hcancel.
    + eexists. split; [reflexivity|].
      unfold Add, bigMul. cbn [PublicVal]. f_equal.
      rewrite Z.mul_mod_idemp_l, <- Z.mul_assoc, (Z.mul_comm v)
        by exact Hnz.
      apply Hcancel.
Qed.

Lemma Add_Sub_laws_witness :
  Sub (vector_instance [])
    (Add (vector_instance []) {| PublicVal := 58 |} {| PublicVal := 154 |}
       (PublicKey_of vector_key))
    {| PublicVal := 154 |} (PublicKey_of vector_key)
  = Ok {| PublicVal := 58 mod P_nn (PublicKey_of vector_key) |}.
Proof.
  destruct (Add_Sub_laws (vector_instance []) {| PublicVal := 58 |}
              {| PublicVal := 154 |} {| PublicVal := 1 |}
              (PublicKey_of vector_key)) as (_ & _ & HS).
  - reflexivity.
  - apply HS. reflexivity.
Defined.

(** X10. [Mul] on ciphertexts: for a positive modulus and non-negative
    scalars, [Mul] by [j + k] is the [Add] of [Mul] by [j] and by [k], [Mul]
    by [j] then by [k] is [Mul] by [j k], [Mul] distributes over [Add], one
    more in the scalar is one more [Add] of the operand, and [Mul] by 0 is the
    ciphertext [1 mod n^2]. *)
Theorem Mul_laws {reader : Type} (p : paillier reader)
    (a b : PublicValue) (j k : Z) (key : PublicKey) :
  0 < P_nn key -> 0 <= j -> 0 <= k ->
  Mul p a (j + k) key = Add p (Mul p a j key) (Mul p a k key) key /\
  Mul p (Mul p a j key) k key = Mul p a (j * k) key /\
  Mul p (Add p a b key) k key = Add p (Mul p a k key) (Mul p b k key) key /\
  Mul p a (Z.succ k) key = Add p (Mul p a k key) a key /\
  Mul p a 0 key = {| PublicVal := 1 mod P_nn key |}.
Proof.
  intros Hnn Hj Hk. assert (Hnz : P_nn key <> 0) by lia.
  unfold Mul, Add, bigMul, pow. cbn [PublicVal].
  repeat split; f_equal.
  - rewrite Z.pow_add_r by assumption. apply Z.mul_mod, Hnz.
  - rewrite Z.mod_pow_l, Z.pow_mul_r by assumption. reflexivity.
  - rewrite Z.mod_pow_l, Z.pow_mul_l. apply Z.mul_mod, Hnz.
  - rewrite Z.pow_succ_r, Z.mul_comm, Z.mul_mod_idemp_l by assumption.
    reflexivity.
Qed.

Lemma Mul_laws_witness :
  Mul (vector_instance []) {| PublicVal := 58 |} (2 + 3)
    (PublicKey_of vector_key)
  = Add (vector_instance [])
      (Mul (vector_instance []) {| PublicVal := 58 |} 2
         (PublicKey_of vector_key))
      (Mul (vector_instance []) {| PublicVal := 58 |} 3
         (PublicKey_of vector_key))
      (PublicKey_of vector_key).
Proof.
  destruct (Mul_laws (vector_instance []) {| PublicVal := 58 |}
              {| PublicVal := 154 |} 2 3 (PublicKey_of vector_key))
    as (HM & _).
  - reflexivity.
  - lia.
  - lia.
  - exact HM.
Defined.

(** ** A draw that is not a unit *)

(** X8. A draw that is not coprime to [n] is used all the same, and the
    ciphertext [Encrypt] then returns is not a unit modulo [n^2]: every [Sub]
    with it as subtrahend stops with [InverseError]. *)
Theorem Sub_panics_on_bad_draw {reader : Type} `{EntropySource reader}
    (e : paillier reader) (key : PublicKey) (m : PrivateValue) (r : Z)
    (rd : reader) :
  0 < P_n key -> P_nn key = P_n key * P_n key ->
  rand_Int (randomReader e) (P_n key) = (Ok r, rd) ->
  ~ Z.coprime r (P_n key) ->
  exists c,
    Encrypt e key m = (Ok c, with_reader e rd) /\
    ~ Z.coprime (PublicVal c) (P_nn key) /\
    forall a, Sub e a c key = Err InverseError.
Proof.
  intros Hn Hnn Hr Hnc.
  eexists. split; [apply Encrypt_draw, Hr|]. cbn [PublicVal].
  assert (Hbad : ~ Z.coprime
                   (bigMul (pow (P_g key) (PrivateVal m) (P_nn key))
                      (pow r (P_n key) (P_nn key)) (P_nn key)) (P_nn key)).
  { intros Hc. apply Hnc.
    unfold bigMul, pow in Hc.
    apply (proj1 (Z.coprime_mod_l_iff _ _)) in Hc.
    symmetry in Hc. apply coprime_mul_inv in Hc. destruct Hc as (_ & Hc).
    symmetry in Hc. apply (proj1 (Z.coprime_mod_l_iff _ _)) in Hc.
    rewrite Hnn in Hc. apply coprime_mul_inv in Hc. destruct Hc as (Hc & _).
    replace (P_n key) with (Z.succ (P_n key - 1)) in Hc at 1 by lia.
    rewrite Z.pow_succ_r in Hc by lia.
    symmetry in Hc. apply coprime_mul_inv in Hc. destruct Hc as (Hc & _).
    symmetry. exact Hc. }
  split; [exact Hbad|].
  intros a. unfold Sub. cbn [PublicVal].
  destruct (rev _ _) as [v | err] eqn:E.
  - apply rev_Ok in E. destruct E as (Hc & _). contradiction.
  - apply rev_Err in E. destruct E as (-> & _). reflexivity.
Qed.

Lemma Sub_panics_on_bad_draw_witness :
  exists c,
    Encrypt (vector_instance [3]) (PublicKey_of vector_key)
      {| PrivateVal := 2 |}
    = (Ok c, with_reader (vector_instance [3]) []) /\
    ~ Z.coprime (PublicVal c) (P_nn (PublicKey_of vector_key)) /\
    forall a, Sub (vector_instance [3]) a c (PublicKey_of vector_key)
              = Err InverseError.
Proof.
  apply (Sub_panics_on_bad_draw (vector_instance [3])
           (PublicKey_of vector_key) {| PrivateVal := 2 |} 3 []).
  - reflexivity.
  - reflexivity.
  - reflexivity.
  - discriminate.
Defined.
